(** * FileBroke: the content-identity comparison pipeline of [compare.py]

    A shallow embedding of [compare.py]: the fingerprint cache, the tree
    scanner, the full and partial hashing routines, the fingerprint engine,
    the reconciliation of [main] and the subtitle locator, followed by the
    properties the specification states about them.

    Conventions of the embedding.
    - Python [int] is [Z]; [bytes] is [list byte]; [str] is [string]
      (case folding, whitespace and digit tests are those of ASCII).
    - A [pathlib.Path] is the list of its components, root first.
    - A Python [dict] is an association list in insertion order; assigning
      to a key that is present replaces the value where it stands.
    - A call that may raise returns a [result]; [Raise e] is the exception.
    - The standard streams are the lists of the lines written to them.
    - The worker pool is its completion order: [as_completed] is any
      function that returns a permutation of the futures submitted.

    What the embedding leaves out.
    - The file system is a fixed function from paths to nodes: no file
      changes while the program runs, and a read of an open file does not
      fail half way.
    - [is_file] and [is_dir] answer [False] for any path that cannot be
      stat'ed.
    - Opening the cache database and reading from it do not fail; a write
      may.
    - The library functions [hashlib.new], [os.walk] and [float] are
      parameters; [argparse] has run, and [main] starts from its result. *)

From Stdlib Require Import String Ascii ZArith QArith Lia Bool Permutation List.
From Stdlib Require Import Strings.Byte.
From Equations Require Import Equations.
Import ListNotations.

Local Open Scope Z_scope.

(* ------------------------------------------------------------------ *)
(** ** Exceptions and results *)

(** The [OSError] family, by the condition that raised it. *)
Inductive oserror : Type :=
| EACCES    (* PermissionError *)
| ENOENT    (* FileNotFoundError *)
| ENOTDIR   (* NotADirectoryError *)
| EISDIR    (* IsADirectoryError *)
| EIO.      (* any other OSError *)

Inductive exn : Type :=
| OSError (e : oserror)
| ValueError
| IndexError
| OverflowError
| OperationalError   (* sqlite3.OperationalError *)
| ArgumentTypeError (msg : string).

Inductive result (A : Type) : Type :=
| Ok (a : A)
| Raise (e : exn).
Arguments Ok {A} a.
Arguments Raise {A} e.

Definition bind {A B} (r : result A) (k : A -> result B) : result B :=
  match r with
  | Ok a => k a
  | Raise e => Raise e
  end.

Notation "x <- r ;; k" := (bind r (fun x => k))
  (at level 61, r at next level, right associativity).

(** [except PermissionError] *)
Definition is_PermissionError (e : exn) : bool :=
  match e with
  | OSError EACCES => true
  | _ => false
  end.

(* ------------------------------------------------------------------ *)
(** ** Paths and the file system *)

Definition Path := list string.

Definition path_eqb (p q : Path) : bool :=
  if list_eq_dec string_dec p q then true else false.

Lemma path_eqb_eq p q : path_eqb p q = true <-> p = q.
Proof.
  unfold path_eqb. destruct (list_eq_dec string_dec p q); split; congruence.
Qed.

(** [p / name] *)
Definition path_join (p : Path) (name : string) : Path := p ++ [name].

(** [p.parent] *)
Definition parent (p : Path) : Path := removelast p.

(** [p.name] *)
Definition name (p : Path) : string := last p EmptyString.

(** What a path resolves to (symbolic links followed). *)
Inductive Node : Type :=
| RegularFile (content : list byte) (mtime : Z) (open_error : option oserror)
| Directory (listing : oserror + list string) (mtime : Z) (dsize : Z)
| Special (mtime : Z) (ssize : Z).

(** [fs p] is [inl e] when [os.stat(p)] raises [e] (missing entry, broken
    link, permission denied). *)
Definition FileSystem := Path -> oserror + Node.

Record stat_result : Type := { st_size : Z; st_mtime : Z }.

Definition node_stat (n : Node) : stat_result :=
  match n with
  | RegularFile content mtime _ =>
      {| st_size := Z.of_nat (length content); st_mtime := mtime |}
  | Directory _ mtime dsize => {| st_size := dsize; st_mtime := mtime |}
  | Special mtime ssize => {| st_size := ssize; st_mtime := mtime |}
  end.

(** [p.stat()] *)
Definition stat (fs : FileSystem) (p : Path) : result stat_result :=
  match fs p with
  | inl e => Raise (OSError e)
  | inr n => Ok (node_stat n)
  end.

(** [p.is_file()] and [p.is_dir()]: false when the path cannot be stat'ed. *)
Definition is_file (fs : FileSystem) (p : Path) : bool :=
  match fs p with
  | inr (RegularFile _ _ _) => true
  | _ => false
  end.

Definition is_dir (fs : FileSystem) (p : Path) : bool :=
  match fs p with
  | inr (Directory _ _ _) => true
  | _ => false
  end.

(** An open binary file: its bytes and the read position. *)
Record handle : Type := { h_data : list byte; h_pos : nat }.

(** [p.open("rb")] *)
Definition path_open (fs : FileSystem) (p : Path) : result handle :=
  match fs p with
  | inl e => Raise (OSError e)
  | inr (RegularFile content _ None) => Ok {| h_data := content; h_pos := 0 |}
  | inr (RegularFile _ _ (Some e)) => Raise (OSError e)
  | inr (Directory _ _ _) => Raise (OSError EISDIR)
  | inr (Special _ _) => Raise (OSError EIO)
  end.

(** [f.read(n)]: at most [n] bytes from the position; everything that is
    left when [n] is negative. *)
Definition f_read (f : handle) (n : Z) : list byte * handle :=
  let rest := skipn (h_pos f) (h_data f) in
  let chunk := if n <? 0 then rest else firstn (Z.to_nat n) rest in
  (chunk, {| h_data := h_data f; h_pos := h_pos f + length chunk |}).

(** [f.seek(off)] for [off >= 0] *)
Definition f_seek (f : handle) (off : Z) : handle :=
  {| h_data := h_data f; h_pos := Z.to_nat off |}.

Definition remaining (f : handle) : nat := length (h_data f) - h_pos f.

Lemma f_read_progress f n b chunk f' :
  f_read f n = (b :: chunk, f') -> (remaining f' < remaining f)%nat.
Proof.
  unfold f_read, remaining. intros H. injection H as Hc Hf. subst f'. simpl.
  assert (Hle : (length (b :: chunk) <= length (skipn (h_pos f) (h_data f)))%nat).
  { rewrite <- Hc. destruct (n <? 0); [lia | rewrite length_firstn; lia]. }
  rewrite Hc. rewrite length_skipn in Hle. simpl in *. lia.
Qed.

(* ------------------------------------------------------------------ *)
(** ** Hashing (full / partial) *)

Definition BUF_SIZE : Z := 1024 * 1024.

(** A [hashlib] object: the digest function of its algorithm and the bytes
    fed to it so far. *)
Record hasher : Type := { h_fn : list byte -> string; h_fed : list byte }.

Definition update (h : hasher) (chunk : list byte) : hasher :=
  {| h_fn := h_fn h; h_fed := h_fed h ++ chunk |}.

Definition hexdigest (h : hasher) : string := h_fn h (h_fed h).

Definition bytes (s : string) : list byte := list_byte_of_string s.

(** [max(a, b)] *)
Definition py_max (a b : Z) : Z := if a <? b then b else a.

Definition inspect {A : Type} (a : A) : {b : A | a = b} := exist _ a eq_refl.

(** The [while True: chunk = f.read(BUF_SIZE) ...] loop of [_hash_stream]. *)
Equations? stream_loop (bufsz : Z) (h : hasher) (f : handle) : hasher
  by wf (remaining f) lt :=
stream_loop bufsz h f with inspect (f_read f bufsz) := {
  | exist _ ([], _) _ := h;
  | exist _ (b :: chunk, f') e := stream_loop bufsz (update h (b :: chunk)) f' }.
Proof.
  apply (f_read_progress f bufsz b chunk).
  unfold f_read; cbv zeta. now rewrite H0.
Qed.

Section Hashing.

(** [hashlib.new]: the digest function of a supported algorithm, [None]
    for a name [hashlib] rejects with [ValueError]. *)
Variable hashlib : string -> option (list byte -> string).

Definition hashlib_new (algo_name : string) : result hasher :=
  match hashlib algo_name with
  | Some fn => Ok {| h_fn := fn; h_fed := [] |}
  | None => Raise ValueError
  end.

Definition _hash_stream (fs : FileSystem) (path : Path) (algo_name : string)
  : result string :=
  h <- hashlib_new algo_name ;;
  f <- path_open fs path ;;
  Ok (hexdigest (stream_loop BUF_SIZE h f)).

Definition _hash_partial (fs : FileSystem) (path : Path) (algo_name : string)
           (chunk_size : Z) : result string :=
  st <- stat fs path ;;
  let size := st_size st in
  if size <=? chunk_size * 2 then _hash_stream fs path algo_name
  else
    h <- hashlib_new algo_name ;;
    f <- path_open fs path ;;
    let '(first, f) := f_read f chunk_size in
    let h := update h (bytes "FIRST") in
    let h := update h first in
    let f := f_seek f (py_max 0 (size - chunk_size)) in
    let '(last, f) := f_read f chunk_size in
    let h := update h (bytes "LAST") in
    let h := update h last in
    Ok (hexdigest h).

Definition hash_file (fs : FileSystem) (path : Path) (algo method : string)
           (chunk_size : Z) : result string :=
  if String.eqb method "full" then _hash_stream fs path algo
  else _hash_partial fs path algo chunk_size.

End Hashing.

(* ------------------------------------------------------------------ *)
(** ** Strings, as Python's [str] methods treat them (ASCII) *)

Definition chars (s : string) : list ascii := list_ascii_of_string s.
Definition str (l : list ascii) : string := string_of_list_ascii l.

Definition lower_char (c : ascii) : ascii :=
  let n := nat_of_ascii c in
  if ((65 <=? n) && (n <=? 90))%nat then ascii_of_nat (n + 32) else c.

(** [s.lower()] *)
Definition lower (s : string) : string := str (map lower_char (chars s)).

(** [c.isspace()]: tab to carriage return, the four separators, space. *)
Definition is_space (c : ascii) : bool :=
  let n := nat_of_ascii c in
  (((9 <=? n) && (n <=? 13)) || ((28 <=? n) && (n <=? 32)))%nat.

Definition is_digit (c : ascii) : bool :=
  let n := nat_of_ascii c in ((48 <=? n) && (n <=? 57))%nat.

Fixpoint drop_space (l : list ascii) : list ascii :=
  match l with
  | c :: l' => if is_space c then drop_space l' else l
  | [] => []
  end.

(** [s.strip()] *)
Definition strip (s : string) : string :=
  str (rev (drop_space (rev (drop_space (chars s))))).

(** [s.split()]: the maximal runs of characters that are not whitespace.
    [cur] is the run being read, last character first. *)
Fixpoint split_ws (cur : list ascii) (l : list ascii) : list string :=
  let flush := match cur with [] => [] | _ => [str (rev cur)] end in
  match l with
  | [] => flush
  | c :: l' => if is_space c then (flush ++ split_ws [] l')%list
               else split_ws (c :: cur) l'
  end.

Definition split (s : string) : list string := split_ws [] (chars s).

(** [s.isdigit()]: not empty and nothing but digits. *)
Definition isdigit (s : string) : bool :=
  match chars s with
  | [] => false
  | l => forallb is_digit l
  end.

(** [s[-1:]] *)
Definition last_slice (s : string) : string :=
  match rev (chars s) with
  | [] => EmptyString
  | c :: _ => String c EmptyString
  end.

(** [s[-1]] *)
Definition last_char (s : string) : result ascii :=
  match rev (chars s) with
  | [] => Raise IndexError
  | c :: _ => Ok c
  end.

(** [s[:-1]] *)
Definition but_last (s : string) : string := str (removelast (chars s)).

(** [needle in hay] *)
Fixpoint contains (needle hay : string) : bool :=
  String.prefix needle hay ||
  match hay with
  | EmptyString => false
  | String _ hay' => contains needle hay'
  end.

(** [s.startswith(p)] *)
Definition startswith (s p : string) : bool := String.prefix p s.

Definition mem_string (s : string) (l : list string) : bool :=
  existsb (String.eqb s) l.

(** The split of a file name at its last dot: [pathlib] takes the dot as
    the start of a suffix when it is neither the first nor the last
    character of the name. *)
Fixpoint rfind_dot (l : list ascii) : option nat :=
  match l with
  | [] => None
  | c :: l' =>
      match rfind_dot l' with
      | Some i => Some (S i)
      | None => if Ascii.eqb c "." then Some 0%nat else None
      end
  end.

Definition suffix_of_name (nm : string) : string :=
  match rfind_dot (chars nm) with
  | Some i => if ((0 <? i) && (i <? length (chars nm) - 1))%nat
              then str (skipn i (chars nm)) else EmptyString
  | None => EmptyString
  end.

Definition stem_of_name (nm : string) : string :=
  match rfind_dot (chars nm) with
  | Some i => if ((0 <? i) && (i <? length (chars nm) - 1))%nat
              then str (firstn i (chars nm)) else nm
  | None => nm
  end.

(** [p.suffix] and [p.stem] *)
Definition suffix (p : Path) : string := suffix_of_name (name p).
Definition stem (p : Path) : string := stem_of_name (name p).

(** [str(p)]: the components joined by the separator; the root of an
    absolute path is the empty first component, and the empty path is the
    current directory. *)
Definition path_str (p : Path) : string :=
  match p with
  | [] => "."
  | [EmptyString] => "/"
  | _ => String.concat "/" p
  end.

(* ------------------------------------------------------------------ *)
(** ** Dictionaries in insertion order *)

Section Dict.
Context {K V : Type}.
Variable eqb : K -> K -> bool.

Definition dict := list (K * V).

(** [d[k] = v] *)
Fixpoint dict_set (d : dict) (k : K) (v : V) : dict :=
  match d with
  | [] => [(k, v)]
  | (k', v') :: d' =>
      if eqb k' k then (k', v) :: d' else (k', v') :: dict_set d' k v
  end.

(** [d.get(k)] *)
Fixpoint dict_get (d : dict) (k : K) : option V :=
  match d with
  | [] => None
  | (k', v') :: d' => if eqb k' k then Some v' else dict_get d' k
  end.

Definition keys (d : dict) : list K := map fst d.
Definition values (d : dict) : list V := map snd d.
End Dict.
Arguments dict K V : clear implicits.

(* ------------------------------------------------------------------ *)
(** ** Numbers read from strings *)

Definition digit_value (c : ascii) : Z := Z.of_nat (nat_of_ascii c) - 48.

(** The digits of an [int] literal: single underscores may separate them. *)
Fixpoint int_digits (acc : Z) (after_digit : bool) (l : list ascii) : option Z :=
  match l with
  | [] => if after_digit then Some acc else None
  | c :: l' =>
      if is_digit c then int_digits (10 * acc + digit_value c) true l'
      else if Ascii.eqb c "_" && after_digit then int_digits acc false l'
      else None
  end.

(** [int(s)] for a string: surrounding whitespace, an optional sign, digits. *)
Definition py_int (s : string) : result Z :=
  let parsed :=
    match chars (strip s) with
    | "+"%char :: l => int_digits 0 false l
    | "-"%char :: l => option_map Z.opp (int_digits 0 false l)
    | l => int_digits 0 false l
    end in
  match parsed with
  | Some n => Ok n
  | None => Raise ValueError
  end.

(** A Python [float]: a finite value is [m * 2^e]. *)
Inductive pyfloat : Type :=
| Finite (m e : Z)
| Infinity (negative : bool)
| NaN.

(** Whether [m * 2^e] lies beyond the largest finite binary64 value. *)
Definition float_overflows (m e : Z) : bool :=
  if m =? 0 then false
  else if 1024 <? e then true
  else 2 ^ (1024 - e) <=? Z.abs m.

(** [x * u] for [u] a positive power of two: the exponent moves and the
    significand stays, so the product is exact unless it overflows. *)
Definition float_mul_pow2 (x : pyfloat) (u : Z) : pyfloat :=
  match x with
  | Finite m e =>
      let e' := e + Z.log2 u in
      if float_overflows m e' then Infinity (m <? 0) else Finite m e'
  | Infinity negative => Infinity negative
  | NaN => NaN
  end.

(** [int(x)] for a float: the value with its fraction discarded. *)
Definition int_of_float (x : pyfloat) : result Z :=
  match x with
  | Finite m e => Ok (if 0 <=? e then m * 2 ^ e else Z.quot m (2 ^ (- e)))
  | Infinity _ => Raise OverflowError
  | NaN => Raise ValueError
  end.


(* ------------------------------------------------------------------ *)
(** ** Discovery: [parse_size] *)

Definition units (c : ascii) : option Z :=
  if Ascii.eqb c "k" then Some 1024
  else if Ascii.eqb c "m" then Some (1024 ^ 2)
  else if Ascii.eqb c "g" then Some (1024 ^ 3)
  else if Ascii.eqb c "t" then Some (1024 ^ 4)
  else None.

Section ParseSize.

(** [float(s)] for a string: the builtin's parser, which rounds the
    literal to the nearest binary64 value, and raises [ValueError] on a
    string that is no float literal. *)
Variable py_float : string -> result pyfloat.

Definition parse_size (s : string) : result Z :=
  let s := lower (strip s) in
  if isdigit (last_slice s) then py_int s
  else
    c <- last_char s ;;
    match units c with
    | Some u =>
        x <- py_float (but_last s) ;;
        int_of_float (float_mul_pow2 x u)
    | None => Raise (ArgumentTypeError ("Invalid size: " ++ s))
    end.

End ParseSize.

(* ------------------------------------------------------------------ *)
(** ** The fingerprint cache *)

Module HashCache.

(** A row of the table [filehash]. *)
Record Row : Type := {
  r_path : string;
  r_mtime : Z;
  r_size : Z;
  r_method : string;
  r_algo : string;
  r_chunk_size : Z;
  r_hash : string
}.

(** The open cache: the rows of [filehash], whose primary key is the
    column [path], and the writes that the database refuses. *)
Record t : Type := {
  table : list Row;
  write_fails : Row -> bool
}.

(** The six columns that a lookup compares. *)
Definition key_of (r : Row) : string * Z * Z * string * string * Z :=
  (r_path r, r_mtime r, r_size r, r_method r, r_algo r, r_chunk_size r).

(** [WHERE path=? AND mtime=? AND size=? AND method=? AND algo=? AND
    chunk_size=?] *)
Definition selects (p : Path) (mtime size : Z) (method algo : string)
           (chunk_size : Z) (r : Row) : bool :=
  String.eqb (r_path r) (path_str p) && (r_mtime r =? mtime)
  && (r_size r =? size) && String.eqb (r_method r) method
  && String.eqb (r_algo r) algo && (r_chunk_size r =? chunk_size).

Definition get (c : t) (p : Path) (mtime size : Z) (method algo : string)
           (chunk_size : Z) : option string :=
  match find (selects p mtime size method algo chunk_size) (table c) with
  | Some r => Some (r_hash r)
  | None => None
  end.

(** [REPLACE INTO filehash ...]: the row that holds the same primary key
    is deleted, then the new row is inserted. *)
Definition replace_into (rows : list Row) (new : Row) : list Row :=
  (filter (fun r => negb (String.eqb (r_path r) (r_path new))) rows
     ++ [new])%list.

Definition set (c : t) (p : Path) (mtime size : Z) (method algo : string)
           (chunk_size : Z) (digest : string) : result t :=
  let new := {| r_path := path_str p; r_mtime := mtime; r_size := size;
                r_method := method; r_algo := algo;
                r_chunk_size := chunk_size; r_hash := digest |} in
  if write_fails c new then Raise OperationalError
  else Ok {| table := replace_into (table c) new;
             write_fails := write_fails c |}.

End HashCache.

(* ------------------------------------------------------------------ *)
(** ** Discovery: [collect_video_files] *)

Record FileInfo : Type := { path : Path; size : Z }.

Definition SUB_EXTS : list string :=
  [".srt"; ".sub"; ".ass"; ".vtt"; ".idx"]%string.

Definition VIDEO_EXTS : list string :=
  [".mkv"; ".mp4"; ".m4v"; ".mov"; ".avi"; ".wmv";
   ".ts"; ".m2ts"; ".mts"; ".webm"]%string.

Section Scanner.

(** [os.walk(root, followlinks=...)]: the directories below [root] with
    their sub-directory names and their file names. *)
Variable os_walk : Path -> bool -> list (Path * list string * list string).

(** The body of the loop over [filenames]. *)
Definition scan_entry (fs : FileSystem) (min_size : Z)
           (files : dict Path FileInfo) (d : Path) (fname : string)
  : dict Path FileInfo :=
  let p := path_join d fname in
  match stat fs p with
  | Raise _ => files
  | Ok st =>
      if negb (is_file fs p) then files
      else if st_size st <? min_size then files
      else if negb (mem_string (lower (suffix p)) VIDEO_EXTS) then files
      else dict_set path_eqb files p {| path := p; size := st_size st |}
  end.

Definition collect_video_files (fs : FileSystem) (root : Path) (min_size : Z)
           (follow_symlinks : bool) : dict Path FileInfo :=
  fold_left
    (fun files '(dirpath, _, filenames) =>
       fold_left (fun files fname => scan_entry fs min_size files dirpath fname)
                 filenames files)
    (os_walk root follow_symlinks) [].

End Scanner.

(* ------------------------------------------------------------------ *)
(** ** The fingerprint engine: [hash_map] *)

(** What the program writes to [sys.stderr]. *)
Inductive ErrLine : Type :=
| HashErrorLine (p : string) (e : exn)      (* [hash error] p: e *)
| ErrText (s : string).

Record HashMapRun : Type := {
  hm_out : dict string FileInfo;       (* the mapping returned *)
  hm_cache : option HashCache.t;       (* the cache after the call *)
  hm_stderr : list ErrLine;            (* the diagnostics printed *)
  hm_hashed : list FileInfo            (* the files given to [hash_file] *)
}.

(** [if cached:] holds for a string that is not empty. *)
Definition truthy (s : string) : bool := negb (String.eqb s EmptyString).

Section Engine.

Variable hashlib : string -> option (list byte -> string).

(** [as_completed]: the futures in the order in which they finish. *)
Variable as_completed : list FileInfo -> list FileInfo.

(** The body of the first loop: cache lookup. *)
Definition lookup_step (fs : FileSystem) (algo method : string)
           (chunk_size : Z) (cache : option HashCache.t)
           (acc : dict string FileInfo * list FileInfo) (fi : FileInfo)
  : dict string FileInfo * list FileInfo :=
  let '(out, to_hash) := acc in
  match stat fs (path fi) with
  | Raise _ => (out, to_hash)
  | Ok st =>
      let cached :=
        match cache with
        | Some c => HashCache.get c (path fi) (st_mtime st) (st_size st)
                                  method algo chunk_size
        | None => None
        end in
      match cached with
      | Some d => if truthy d then (dict_set String.eqb out d fi, to_hash)
                  else (out, (to_hash ++ [fi])%list)
      | None => (out, (to_hash ++ [fi])%list)
      end
  end.

(** The body of the second loop: one finished future. *)
Definition complete_step (fs : FileSystem) (algo method : string)
           (chunk_size : Z)
           (acc : dict string FileInfo * option HashCache.t * list ErrLine)
           (fi : FileInfo)
  : dict string FileInfo * option HashCache.t * list ErrLine :=
  let '(out, cache, err) := acc in
  match hash_file hashlib fs (path fi) algo method chunk_size with
  | Raise e => (out, cache, (err ++ [HashErrorLine (path_str (path fi)) e])%list)
  | Ok digest =>
      let out := dict_set String.eqb out digest fi in
      match cache with
      | Some c =>
          match (st <- stat fs (path fi) ;;
                 HashCache.set c (path fi) (st_mtime st) (st_size st)
                               method algo chunk_size digest) with
          | Ok c' => (out, Some c', err)
          | Raise _ => (out, Some c, err)
          end
      | None => (out, None, err)
      end
  end.

Definition hash_map (fs : FileSystem) (files : dict Path FileInfo)
           (algo method : string) (chunk_size workers : Z)
           (cache : option HashCache.t) : result HashMapRun :=
  let '(out, to_hash) :=
    fold_left (lookup_step fs algo method chunk_size cache)
              (values files) ([], []) in
  match to_hash with
  | [] => Ok {| hm_out := out; hm_cache := cache;
                hm_stderr := []; hm_hashed := [] |}
  | _ =>
      (* ThreadPoolExecutor(max_workers=workers) *)
      if workers <=? 0 then Raise ValueError
      else
        let '(out, cache, err) :=
          fold_left (complete_step fs algo method chunk_size)
                    (as_completed to_hash) (out, cache, []) in
        Ok {| hm_out := out; hm_cache := cache;
              hm_stderr := err; hm_hashed := to_hash |}
  end.

End Engine.

(* ------------------------------------------------------------------ *)
(** ** Subtitle detection: [find_subtitles_for] *)

(** [d.iterdir()] *)
Definition iterdir (fs : FileSystem) (d : Path) : result (list Path) :=
  match fs d with
  | inl e => Raise (OSError e)
  | inr (Directory (inr names) _ _) => Ok (map (path_join d) names)
  | inr (Directory (inl e) _ _) => Raise (OSError e)
  | inr _ => Raise (OSError ENOTDIR)
  end.

(** The two tests that both tiers apply first. *)
Definition subtitle_file (fs : FileSystem) (p : Path) : bool :=
  is_file fs p && mem_string (lower (suffix p)) SUB_EXTS.

(** [src.stem.lower() in p.stem.lower()
     or p.stem.lower().startswith(src.stem.lower())] *)
Definition strict_match (src p : Path) : bool :=
  contains (lower (stem src)) (lower (stem p))
  || startswith (lower (stem p)) (lower (stem src)).

(** [len(set(src.stem.lower().split()) & set(p.stem.lower().split())) > 0] *)
Definition loose_match (src p : Path) : bool :=
  existsb (fun tok => mem_string tok (split (lower (stem p))))
          (split (lower (stem src))).

Definition strict_tier (fs : FileSystem) (src : Path) (ps : list Path)
  : list string :=
  map path_str (filter (fun p => subtitle_file fs p && strict_match src p) ps).

Definition loose_tier (fs : FileSystem) (src : Path) (ps : list Path)
  : list string :=
  map path_str (filter (fun p => subtitle_file fs p && loose_match src p) ps).

(** The body of the loop over [candidates_dirs]; [out] is the list that
    all the directories append to. *)
Definition scan_pass (fs : FileSystem) (src : Path) (out : list string)
           (d : Path) : result (list string) :=
  match iterdir fs d with
  | Raise e => if is_PermissionError e then Ok out else Raise e
  | Ok ps =>
      let out := (out ++ strict_tier fs src ps)%list in
      match out with
      | [] =>
          (* loosened-match fallback *)
          match iterdir fs d with
          | Raise e => if is_PermissionError e then Ok out else Raise e
          | Ok ps' => Ok (out ++ loose_tier fs src ps')%list
          end
      | _ :: _ => Ok out
      end
  end.

Fixpoint scan_dirs (fs : FileSystem) (src : Path) (out : list string)
         (dirs : list Path) : result (list string) :=
  match dirs with
  | [] => Ok out
  | d :: dirs' => out' <- scan_pass fs src out d ;; scan_dirs fs src out' dirs'
  end.

Definition candidates_dirs (fs : FileSystem) (src : Path) : list Path :=
  let subs_dir := path_join (parent src) "Subs" in
  (parent src :: (if is_dir fs subs_dir then [subs_dir] else []))%list.

Definition find_subtitles_for (fs : FileSystem) (src : Path)
  : result (list string) :=
  scan_dirs fs src [] (candidates_dirs fs src).

(* ------------------------------------------------------------------ *)
(** ** The command line: [main] *)

Inductive Format : Type := text | jsonl.

Record Args : Type := {
  a_src : Path;
  a_dst : Path;
  a_format : Format;
  a_algo : string;
  a_method : string;
  a_chunk_size : Z;
  a_min_size : string;
  a_workers : Z;
  a_cache : string;
  a_follow_symlinks : bool
}.

Record MissingRecord : Type := {
  rec_src : string;
  rec_basename : string;
  rec_name : string;
  rec_rel_dir : string;
  rec_size : Z;
  rec_ext : string;
  rec_missing_dir : string;
  rec_subtitles : list string
}.

(** What the program writes to [sys.stdout]: a line of text, or the JSON
    object of a record on a line of its own. *)
Inductive OutLine : Type :=
| TextLine (s : string)
| JsonLine (r : MissingRecord).

(** [p.relative_to(base)] *)
Fixpoint relative_to (p base : Path) : result Path :=
  match base, p with
  | [], _ => Ok p
  | b :: base', c :: p' =>
      if String.eqb b c then relative_to p' base' else Raise ValueError
  | _ :: _, [] => Raise ValueError
  end.

(** [p.exists()] *)
Definition path_exists (fs : FileSystem) (p : Path) : bool :=
  match fs p with
  | inr _ => true
  | inl _ => false
  end.

(** The loop that sets [missing] from the two fingerprint mappings. *)
Definition reconcile (src_hashes dst_hashes : dict string FileInfo)
  : list Path :=
  let dst_hash_set := keys dst_hashes in
  fold_left
    (fun missing '(h, fi) =>
       if negb (mem_string h dst_hash_set) then (missing ++ [path fi])%list
       else missing)
    src_hashes [].

(** The record of one missing file. *)
Definition build_record (fs : FileSystem) (args : Args) (p : Path)
  : result MissingRecord :=
  rel <- relative_to (parent p) (a_src args) ;;
  st <- stat fs p ;;
  subs <- find_subtitles_for fs p ;;
  Ok {| rec_src := path_str p;
        rec_basename := name p;
        rec_name := stem p;
        rec_rel_dir := path_str rel;
        rec_size := st_size st;
        rec_ext := suffix p;
        rec_missing_dir := path_str (a_dst args ++ ".Missing"%string :: rel);
        rec_subtitles := subs |}.

Definition print_record (fmt : Format) (r : MissingRecord) : list OutLine :=
  match fmt with
  | jsonl => [JsonLine r]
  | text =>
      (TextLine ("- " ++ rec_src r)
       :: match rec_subtitles r with
          | [] => []
          | subs => [TextLine ("    subtitles: " ++ String.concat ", " subs)]
          end)%list
  end.

(** The loop over [missing]: the lines written, and how the loop ended. *)
Fixpoint emit (fs : FileSystem) (args : Args) (missing : list Path)
  : list OutLine * result unit :=
  match missing with
  | [] => ([], Ok tt)
  | p :: rest =>
      match build_record fs args p with
      | Raise e => ([], Raise e)
      | Ok r =>
          let '(lines, res) := emit fs args rest in
          ((print_record (a_format args) r ++ lines)%list, res)
      end
  end.

(** From [dst_hash_set = ...] to the end of [main]. *)
Definition report (fs : FileSystem) (args : Args)
           (src_hashes dst_hashes : dict string FileInfo)
  : list OutLine * result Z :=
  let missing := reconcile src_hashes dst_hashes in
  match missing with
  | [] =>
      (match a_format args with text => [TextLine "All matched."] | jsonl => [] end,
       Ok 0)
  | _ :: _ =>
      let '(lines, res) := emit fs args missing in
      (lines, _ <- res ;; Ok 0)
  end.

(** A run of the program: how it ended ([Ok code] for [return code], [Raise e]
    for an exception that nothing caught), the two streams, and the cache
    database it leaves. *)
Record Run : Type := {
  run_exit : result Z;
  run_stdout : list OutLine;
  run_stderr : list ErrLine;
  run_db : HashCache.t
}.

(** The status of the process: an exception that reaches the top level ends
    it with status 1. *)
Definition exit_status (r : Run) : Z :=
  match run_exit r with
  | Ok code => code
  | Raise _ => 1
  end.

Section Main.

Variable hashlib : string -> option (list byte -> string).
Variable as_completed : list FileInfo -> list FileInfo.
Variable os_walk : Path -> bool -> list (Path * list string * list string).
Variable py_float : string -> result pyfloat.

Definition cache_enabled (args : Args) : bool :=
  truthy (a_cache args) && negb (String.eqb (lower (a_cache args)) "none").

(** [main] after [parse_args]; [db] is the database that [--cache] names. *)
Definition main (fs : FileSystem) (db : HashCache.t) (args : Args) : Run :=
  let crash (e : exn) (err : list ErrLine) (db' : HashCache.t) :=
    {| run_exit := Raise e; run_stdout := []; run_stderr := err;
       run_db := db' |} in
  match parse_size py_float (a_min_size args) with
  | Raise e => crash e [] db
  | Ok min_size =>
      if negb (path_exists fs (a_src args)) || negb (is_dir fs (a_src args))
         || negb (path_exists fs (a_dst args)) || negb (is_dir fs (a_dst args))
      then
        {| run_exit := Ok 2; run_stdout := [];
           run_stderr :=
             [ErrText "Source or destination path does not exist or is not a directory."];
           run_db := db |}
      else
        let cache := if cache_enabled args then Some db else None in
        let src_files :=
          collect_video_files os_walk fs (a_src args) min_size
                              (a_follow_symlinks args) in
        let dst_files :=
          collect_video_files os_walk fs (a_dst args) min_size
                              (a_follow_symlinks args) in
        match hash_map hashlib as_completed fs src_files (a_algo args)
                       (a_method args) (a_chunk_size args) (a_workers args)
                       cache with
        | Raise e => crash e [] db
        | Ok src_run =>
            match hash_map hashlib as_completed fs dst_files (a_algo args)
                           (a_method args) (a_chunk_size args)
                           (a_workers args) (hm_cache src_run) with
            | Raise e =>
                crash e (hm_stderr src_run)
                      (match hm_cache src_run with Some c => c | None => db end)
            | Ok dst_run =>
                let '(lines, res) :=
                  report fs args (hm_out src_run) (hm_out dst_run) in
                {| run_exit := res; run_stdout := lines;
                   run_stderr := (hm_stderr src_run ++ hm_stderr dst_run)%list;
                   run_db := match hm_cache dst_run with
                             | Some c => c
                             | None => db
                             end |}
            end
        end
  end.

End Main.

(* ------------------------------------------------------------------ *)
(** ** Notions the properties are stated with *)

(** The first and the last [n] bytes of a byte sequence. *)
Definition first_bytes (n : Z) (l : list byte) : list byte :=
  firstn (Z.to_nat n) l.

Definition last_bytes (n : Z) (l : list byte) : list byte :=
  skipn (length l - Z.to_nat n) l.

(** The digest of a byte sequence under a named algorithm; [ValueError]
    for a name that [hashlib] does not know. *)
Definition digest_of (hashlib : string -> option (list byte -> string))
           (algo_name : string) (data : list byte) : result string :=
  match hashlib algo_name with
  | Some fn => Ok (fn data)
  | None => Raise ValueError
  end.

(** The framed byte sequence that partial mode digests. *)
Definition framed (chunk_size : Z) (content : list byte) : list byte :=
  (bytes "FIRST" ++ first_bytes chunk_size content
     ++ bytes "LAST" ++ last_bytes chunk_size content)%list.

(* ------------------------------------------------------------------ *)
(** ** Instances for the examples

    The theorems hold for every digest function, completion order,
    directory walk and float parser; the examples run the program on the
    small instances below. *)

(** A digest function that knows one algorithm and writes the data back
    behind a mark. *)
Definition toy_hashlib (algo_name : string) : option (list byte -> string) :=
  if String.eqb algo_name "blake2b"
  then Some (fun data => ("#" ++ string_of_list_byte data)%string)
  else None.

Definition round_half_even (n d : Z) : Z :=
  let q := n / d in
  let r := n mod d in
  if 2 * r <? d then q
  else if d <? 2 * r then q + 1
  else if Z.even q then q else q + 1.

(** The binary64 value nearest to [n / d], for [0 <= n] and [0 < d]. *)
Definition nearest_double (negative : bool) (n d : Z) : pyfloat :=
  if n =? 0 then Finite 0 0
  else
    let l := Z.log2 n - Z.log2 d in
    let fl := if d * 2 ^ Z.max 0 l <=? n * 2 ^ Z.max 0 (- l) then l else l - 1 in
    let e := Z.max (fl - 52) (-1074) in
    let m := round_half_even (n * 2 ^ Z.max 0 (- e)) (d * 2 ^ Z.max 0 e) in
    if float_overflows m e then Infinity negative
    else Finite (if negative then - m else m) e.

Fixpoint all_digits (acc : Z) (l : list ascii) : option Z :=
  match l with
  | [] => Some acc
  | c :: l' => if is_digit c then all_digits (10 * acc + digit_value c) l'
               else None
  end.

Fixpoint split_at_point (l : list ascii) : list ascii * option (list ascii) :=
  match l with
  | [] => ([], None)
  | c :: l' =>
      if Ascii.eqb c "." then ([], Some l')
      else let '(a, b) := split_at_point l' in (c :: a, b)
  end.

(** [float(s)] on the decimal literals without exponent: a sign, digits, a
    point, digits.  The other literals of the builtin (exponents, [inf],
    [nan], underscores) are outside this instance, which rejects them. *)
Definition decimal_float (s : string) : result pyfloat :=
  let '(negative, l) :=
    match chars (strip s) with
    | "-"%char :: l => (true, l)
    | "+"%char :: l => (false, l)
    | l => (false, l)
    end in
  let '(ip, fp) := split_at_point l in
  let fp' := match fp with Some f => f | None => [] end in
  match ip, fp' with
  | [], [] => Raise ValueError
  | _, _ =>
      match all_digits 0 (ip ++ fp') with
      | Some n => Ok (nearest_double negative n (10 ^ Z.of_nat (length fp')))
      | None => Raise ValueError
      end
  end.

(** A file system given by the list of its entries; every other path is
    missing. *)
Definition fs_of (entries : list (Path * Node)) : FileSystem :=
  fun p =>
    match find (fun e => path_eqb (fst e) p) entries with
    | Some e => inr (snd e)
    | None => inl ENOENT
    end.

(** A walk that lists the root and nothing below it. *)
Definition flat_walk (fs : FileSystem) (root : Path) (follow : bool)
  : list (Path * list string * list string) :=
  match fs root with
  | inr (Directory (inr names) _ _) => [(root, [], names)]
  | _ => []
  end.

Definition src_dir : Path := [""; "src"]%string.
Definition dst_dir : Path := [""; "dst"]%string.
Definition movie : Path := [""; "src"; "MovieA.mkv"]%string.
Definition movie_content : list byte := bytes "0123456789".

(** A source tree with a film, its subtitle, a film that is too small and a
    film that cannot be opened; an empty destination. *)
Definition toy_fs : FileSystem :=
  fs_of
    [ (src_dir,
       Directory (inr ["MovieA.mkv"; "MovieA.eng.srt"; "tiny.mp4"; "locked.MP4"]%string)
                 50 4096);
      (movie, RegularFile movie_content 100 None);
      ([""; "src"; "MovieA.eng.srt"]%string, RegularFile (bytes "sub") 101 None);
      ([""; "src"; "tiny.mp4"]%string, RegularFile (bytes "ab") 102 None);
      ([""; "src"; "locked.MP4"]%string,
       RegularFile (bytes "abcdefghij") 103 (Some EACCES));
      (dst_dir, Directory (inr []) 60 4096) ].

(** A cache without rows, whose every write succeeds. *)
Definition empty_cache : HashCache.t :=
  {| HashCache.table := []; HashCache.write_fails := fun _ => false |}.

Definition toy_args (fmt : Format) : Args :=
  {| a_src := src_dir; a_dst := dst_dir; a_format := fmt;
     a_algo := "blake2b"; a_method := "partial"; a_chunk_size := 3;
     a_min_size := "5"; a_workers := 2; a_cache := "cache.db";
     a_follow_symlinks := false |}.

(** The destination holds a copy of the film under another name. *)
Definition mirror_fs : FileSystem :=
  fs_of
    [ (src_dir, Directory (inr ["MovieA.mkv"; "tiny.mp4"]%string) 50 4096);
      (movie, RegularFile movie_content 100 None);
      ([""; "src"; "tiny.mp4"]%string, RegularFile (bytes "ab") 102 None);
      (dst_dir, Directory (inr ["Copy.mkv"]%string) 60 4096);
      ([""; "dst"; "Copy.mkv"]%string, RegularFile movie_content 200 None) ].

(** An entry of the source mapping whose digest is no key of the
    destination mapping. *)
Definition absent_from (dst_hashes : dict string FileInfo)
           (entry : string * FileInfo) : bool :=
  negb (mem_string (fst entry) (keys dst_hashes)).

Definition movie_record : MissingRecord :=
  {| rec_src := "/src/MovieA.mkv"; rec_basename := "MovieA.mkv";
     rec_name := "MovieA"; rec_rel_dir := "."; rec_size := 10;
     rec_ext := ".mkv"; rec_missing_dir := "/dst/.Missing";
     rec_subtitles := ["/src/MovieA.eng.srt"]%string |}.

Definition toy_src_hashes : dict string FileInfo :=
  [("h1", {| path := movie; size := 10 |});
   ("h2", {| path := [""; "src"; "tiny.mp4"]; size := 2 |})]%string.

Definition toy_dst_hashes : dict string FileInfo :=
  [("h2", {| path := [""; "dst"; "Copy.mkv"]; size := 2 |})]%string.

(** The cache after the film was stored at modification time 100, then at
    modification time 200. *)
Definition restored_cache : HashCache.t :=
  {| HashCache.table :=
       [ {| HashCache.r_path := "/src/MovieA.mkv"; HashCache.r_mtime := 200;
            HashCache.r_size := 10; HashCache.r_method := "partial";
            HashCache.r_algo := "blake2b"; HashCache.r_chunk_size := 3;
            HashCache.r_hash := "d2" |} ];
     HashCache.write_fails := fun _ => false |}.

(* ------------------------------------------------------------------ *)
(** ** Notions for the fingerprint engine *)

Definition FileInfo_eq_dec (a b : FileInfo) : {a = b} + {a <> b}.
Proof.
  decide equality; [apply Z.eq_dec | apply (list_eq_dec string_dec)].
Defined.

Section EngineNotions.

Variable hashlib : string -> option (list byte -> string).
Variables (fs : FileSystem) (algo method : string) (chunk_size : Z).
Variable cache : option HashCache.t.

(** The digest that the cache supplies for a file: the file can be
    stat'ed and the lookup under its present tuple returns a string that
    is not empty. *)
Definition cached_digest (fi : FileInfo) : option string :=
  match stat fs (path fi), cache with
  | Ok st, Some c =>
      match HashCache.get c (path fi) (st_mtime st) (st_size st)
                          method algo chunk_size with
      | Some d => if truthy d then Some d else None
      | None => None
      end
  | _, _ => None
  end.

(** The file can be stat'ed and the cache supplies nothing for it. *)
Definition needs_hash (fi : FileInfo) : bool :=
  match stat fs (path fi), cached_digest fi with
  | Ok _, None => true
  | _, _ => false
  end.

(** The digest under which the engine files a file, when it does. *)
Definition fingerprint (fi : FileInfo) : option string :=
  match cached_digest fi with
  | Some d => Some d
  | None =>
      if needs_hash fi then
        match hash_file hashlib fs (path fi) algo method chunk_size with
        | Ok d => Some d
        | Raise _ => None
        end
      else None
  end.

(** The assignments [out[digest] = fi] of the first loop, in order. *)
Definition cache_writes (l : list FileInfo) : list (string * FileInfo) :=
  flat_map (fun fi => match cached_digest fi with
                      | Some d => [(d, fi)]
                      | None => []
                      end) l.

(** The assignments of the second loop, over the finished futures. *)
Definition hash_writes (l : list FileInfo) : list (string * FileInfo) :=
  flat_map (fun fi =>
              match hash_file hashlib fs (path fi) algo method chunk_size with
              | Ok d => [(d, fi)]
              | Raise _ => []
              end) l.

(** The diagnostics of the second loop. *)
Definition hash_errors (l : list FileInfo) : list ErrLine :=
  flat_map (fun fi =>
              match hash_file hashlib fs (path fi) algo method chunk_size with
              | Ok _ => []
              | Raise e => [HashErrorLine (path_str (path fi)) e]
              end) l.

End EngineNotions.

(** The two loops of [hash_map], as one sequence of assignments: the cache
    hits in the order of the batch, then the digests computed, in the
    order in which the futures finish. *)
Definition all_writes (hashlib : string -> option (list byte -> string))
           (as_completed : list FileInfo -> list FileInfo)
           (fs : FileSystem) (algo method : string) (chunk_size : Z)
           (cache : option HashCache.t) (files : dict Path FileInfo)
  : list (string * FileInfo) :=
  (cache_writes fs algo method chunk_size cache (values files)
     ++ hash_writes hashlib fs algo method chunk_size
          (as_completed
             (filter (needs_hash fs algo method chunk_size cache)
                     (values files))))%list.

(** A mapping filled by a sequence of assignments. *)
Definition assign_all (writes : list (string * FileInfo))
           (out : dict string FileInfo) : dict string FileInfo :=
  fold_left (fun o w => dict_set String.eqb o (fst w) (snd w)) writes out.

(** The assignment that wrote last under a digest. *)
Definition last_writer (writes : list (string * FileInfo)) (d : string)
  : option FileInfo :=
  option_map snd (find (fun w => String.eqb (fst w) d) (rev writes)).

(** What the scanner records about a path: a regular file, its size at
    least the minimum, its extension a video extension. *)
Definition scanned_ok (fs : FileSystem) (min_size : Z) (p : Path) (fi : FileInfo)
  : Prop :=
  path fi = p /\
  mem_string (lower (suffix p)) VIDEO_EXTS = true /\
  exists content mtime oe,
    fs p = inr (RegularFile content mtime oe) /\
    size fi = Z.of_nat (length content) /\
    min_size <= size fi.

Definition tiny : Path := [""; "src"; "tiny.mp4"]%string.
Definition locked : Path := [""; "src"; "locked.MP4"]%string.

Definition movie_row : HashCache.Row :=
  {| HashCache.r_path := "/src/MovieA.mkv"; HashCache.r_mtime := 100;
     HashCache.r_size := 10; HashCache.r_method := "partial";
     HashCache.r_algo := "blake2b"; HashCache.r_chunk_size := 3;
     HashCache.r_hash := "#FIRST012LAST789" |}.

(** The fingerprints of the source tree of [toy_fs], computed with an empty
    cache: the film is hashed and stored, the locked film is reported. *)
Definition toy_src_run : HashMapRun :=
  {| hm_out := [("#FIRST012LAST789"%string, {| path := movie; size := 10 |})];
     hm_cache := Some {| HashCache.table := [movie_row];
                         HashCache.write_fails := fun _ => false |};
     hm_stderr := [HashErrorLine "/src/locked.MP4" (OSError EACCES)];
     hm_hashed := [{| path := movie; size := 10 |};
                   {| path := locked; size := 10 |}] |}.


(** Two films with the same bytes. *)
Definition twins_fs : FileSystem :=
  fs_of
    [ (src_dir, Directory (inr ["A.mkv"; "B.mkv"]%string) 50 4096);
      ([""; "src"; "A.mkv"]%string, RegularFile movie_content 100 None);
      ([""; "src"; "B.mkv"]%string, RegularFile movie_content 101 None) ].

Definition twin_a : FileInfo := {| path := [""; "src"; "A.mkv"]%string; size := 10 |}.
Definition twin_b : FileInfo := {| path := [""; "src"; "B.mkv"]%string; size := 10 |}.
Definition twins : dict Path FileInfo := [(path twin_a, twin_a); (path twin_b, twin_b)].

(** The fingerprints of the twins without a cache, the futures finishing in
    the order of submission: the second film holds the digest. *)
Definition twins_run : HashMapRun :=
  {| hm_out := [("#FIRST012LAST789"%string, twin_b)];
     hm_cache := None;
     hm_stderr := [];
     hm_hashed := [twin_a; twin_b] |}.

Definition movie_info : FileInfo := {| path := movie; size := 10 |}.
Definition locked_info : FileInfo := {| path := locked; size := 10 |}.





(* ------------------------------------------------------------------ *)
(** ** Notions for the further properties *)


(** A string of whitespace. *)
Definition blank (s : string) : bool := forallb is_space (chars s).

(** The paths that a walk visits as files. *)
Definition walked (walk : list (Path * list string * list string)) (p : Path)
  : Prop :=
  exists d dirnames filenames fname,
    In (d, dirnames, filenames) walk /\ In fname filenames /\
    p = path_join d fname.

(** What the scanner asks of a path. *)
Definition video_file (fs : FileSystem) (min_size : Z) (p : Path) : Prop :=
  mem_string (lower (suffix p)) VIDEO_EXTS = true /\
  exists content mtime oe,
    fs p = inr (RegularFile content mtime oe) /\
    min_size <= Z.of_nat (length content).

(** The size that [stat] reports for a path; 0 when it cannot be stat'ed. *)
Definition size_of (fs : FileSystem) (p : Path) : Z :=
  match fs p with
  | inr n => st_size (node_stat n)
  | inl _ => 0
  end.

(** The invariant of the two loops of the scan: the keys have no
    duplicate, each is a walked video file, and each holds the record of its
    path. *)
Definition scan_inv (fs : FileSystem) (min_size : Z)
           (walk : list (Path * list string * list string))
           (files : dict Path FileInfo) : Prop :=
  NoDup (keys files) /\
  forall p fi, In (p, fi) files ->
               walked walk p /\ video_file fs min_size p /\
               fi = {| path := p; size := size_of fs p |}.

(** The row that the second loop of [hash_map] stores for a file and its
    digest, when the file can be stat'ed. *)
Definition row_for (fs : FileSystem) (algo method : string) (chunk_size : Z)
           (fi : FileInfo) (d : string) : option HashCache.Row :=
  match stat fs (path fi) with
  | Ok st =>
      Some {| HashCache.r_path := path_str (path fi);
              HashCache.r_mtime := st_mtime st; HashCache.r_size := st_size st;
              HashCache.r_method := method; HashCache.r_algo := algo;
              HashCache.r_chunk_size := chunk_size; HashCache.r_hash := d |}
  | Raise _ => None
  end.

(** The rows that the second loop stores for the finished futures, in
    order; [refuses] tells the writes that fail. *)
Definition stored_rows (hashlib : string -> option (list byte -> string))
           (fs : FileSystem) (algo method : string) (chunk_size : Z)
           (refuses : HashCache.Row -> bool) (l : list FileInfo)
  : list HashCache.Row :=
  flat_map
    (fun fi =>
       match hash_file hashlib fs (path fi) algo method chunk_size with
       | Ok d =>
           match row_for fs algo method chunk_size fi d with
           | Some r => if refuses r then [] else [r]
           | None => []
           end
       | Raise _ => []
       end) l.

(** Whether the hashing of a file raises. *)
Definition hash_raises (hashlib : string -> option (list byte -> string))
           (fs : FileSystem) (algo method : string) (chunk_size : Z)
           (fi : FileInfo) : bool :=
  match hash_file hashlib fs (path fi) algo method chunk_size with
  | Ok _ => false
  | Raise _ => true
  end.

(** The films of the source tree of [toy_fs] that a scan keeps. *)
Definition toy_batch : dict Path FileInfo :=
  [(movie, movie_info); (locked, locked_info)].


(** A line of the standard output has the shape of the format chosen. *)
Definition line_of_format (fmt : Format) (line : OutLine) : Prop :=
  match fmt with
  | jsonl => exists r, line = JsonLine r
  | text => exists s, line = TextLine s
  end.

(** A subtitle that the locator may return for [src]: a regular file with
    a subtitle extension that lies directly in one of [dirs] and passes
    one of the two name tests. *)
Definition nearby_subtitle (fs : FileSystem) (src : Path) (dirs : list Path)
           (s : string) : Prop :=
  exists p,
    s = path_str p /\ In (parent p) dirs /\
    is_file fs p = true /\
    mem_string (lower (suffix p)) SUB_EXTS = true /\
    (strict_match src p = true \/ loose_match src p = true).


(** The arguments of [toy_args] with the cache switched off. *)
Definition uncached_args (fmt : Format) : Args :=
  {| a_src := src_dir; a_dst := dst_dir; a_format := fmt;
     a_algo := "blake2b"; a_method := "partial"; a_chunk_size := 3;
     a_min_size := "5"; a_workers := 2; a_cache := "none";
     a_follow_symlinks := false |}.
(* ------------------------------------------------------------------ *)
(** ** Properties of the hashing routines *)

Lemma stream_loop_fn bufsz h f : h_fn (stream_loop bufsz h f) = h_fn h.
Proof.
  funelim (stream_loop bufsz h f).
  - reflexivity.
  - rewrite H. reflexivity.
Qed.

Lemma skipn_firstn_length {A} n (l : list A) :
  skipn (length (firstn n l)) l = skipn n l.
Proof.
  rewrite length_firstn.
  destruct (Nat.le_ge_cases n (length l)) as [Hle | Hge].
  - now rewrite Nat.min_l.
  - rewrite Nat.min_r by assumption.
    rewrite !skipn_all2 by lia. reflexivity.
Qed.

Lemma stream_loop_fed bufsz h f :
  0 < bufsz ->
  h_fed (stream_loop bufsz h f) = (h_fed h ++ skipn (h_pos f) (h_data f))%list.
Proof.
  intros Hpos. funelim (stream_loop bufsz h f); clear Heqcall.
  - destruct (Z.ltb_spec bufsz 0) as [Hneg | _]; [lia |].
    destruct (skipn (h_pos f) (h_data f)) as [| x rest] eqn:Hrest.
    + now rewrite app_nil_r.
    + destruct (Z.to_nat bufsz) eqn:Hn; [lia | discriminate].
  - rewrite (H Hpos). clear H. simpl.
    destruct (Z.ltb_spec bufsz 0) as [Hneg | _]; [lia |].
    rewrite <- app_assoc. f_equal.
    rewrite Nat.add_comm, <- skipn_skipn, skipn_firstn_length.
    rewrite <- e'. apply firstn_skipn.
Qed.

Section HashingFacts.

Variable hashlib : string -> option (list byte -> string).

(** The full-stream digest is the digest of the whole content. *)
Lemma hash_stream_regular fs p algo content mtime :
  fs p = inr (RegularFile content mtime None) ->
  _hash_stream hashlib fs p algo = digest_of hashlib algo content.
Proof.
  intros Hfs. unfold _hash_stream, hashlib_new, digest_of, path_open.
  rewrite Hfs. destruct (hashlib algo) as [fn |]; simpl; [| reflexivity].
  unfold hexdigest. rewrite stream_loop_fn, stream_loop_fed by reflexivity.
  reflexivity.
Qed.

Lemma hash_partial_small fs p algo chunk_size content mtime oe :
  fs p = inr (RegularFile content mtime oe) ->
  Z.of_nat (length content) <= chunk_size * 2 ->
  _hash_partial hashlib fs p algo chunk_size = _hash_stream hashlib fs p algo.
Proof.
  intros Hfs Hsmall. unfold _hash_partial, stat. rewrite Hfs. simpl.
  destruct (Z.leb_spec (Z.of_nat (length content)) (chunk_size * 2)); [reflexivity | lia].
Qed.

Lemma hash_partial_large fs p algo chunk_size content mtime :
  0 <= chunk_size ->
  fs p = inr (RegularFile content mtime None) ->
  chunk_size * 2 < Z.of_nat (length content) ->
  _hash_partial hashlib fs p algo chunk_size =
    digest_of hashlib algo (framed chunk_size content).
Proof.
  intros Hcs Hfs Hlarge.
  unfold _hash_partial, stat, hashlib_new, digest_of, path_open.
  rewrite Hfs. simpl.
  destruct (Z.leb_spec (Z.of_nat (length content)) (chunk_size * 2)); [lia |].
  destruct (hashlib algo) as [fn |]; simpl; [| reflexivity].
  unfold f_read, f_seek, hexdigest, update, framed, first_bytes, last_bytes.
  simpl h_pos. simpl h_data. cbv beta iota zeta.
  destruct (Z.ltb_spec chunk_size 0); [lia |].
  simpl h_fn. simpl h_fed. f_equal. f_equal.
  unfold py_max.
  destruct (Z.ltb_spec 0 (Z.of_nat (length content) - chunk_size)); [| lia].
  replace (Z.to_nat (Z.of_nat (length content) - chunk_size))
    with (length content - Z.to_nat chunk_size)%nat by lia.
  rewrite (fun n => @firstn_all2 _ n (skipn (length content - Z.to_nat chunk_size) content))
    by (rewrite length_skipn; lia).
  now rewrite <- !app_assoc.
Qed.

(** C1. In partial mode the digest of a readable regular file is fixed by
    its size and content: a file of at most [2 * chunk_size] bytes gets the
    full-stream digest, the digest of all its bytes; a larger file gets the
    digest of ["FIRST"], its first [chunk_size] bytes, ["LAST"] and its last
    [chunk_size] bytes.  Two large files that agree on these two chunks
    get the same digest, whatever lies between them, wherever they are and
    whenever they were modified. *)
Theorem partial_digest_determined fs p algo chunk_size content mtime :
  0 <= chunk_size ->
  fs p = inr (RegularFile content mtime None) ->
  _hash_stream hashlib fs p algo = digest_of hashlib algo content /\
  _hash_partial hashlib fs p algo chunk_size =
    (if Z.of_nat (length content) <=? 2 * chunk_size
     then _hash_stream hashlib fs p algo
     else digest_of hashlib algo
            (bytes "FIRST" ++ first_bytes chunk_size content
               ++ bytes "LAST" ++ last_bytes chunk_size content)%list) /\
  (forall fs' p' content' mtime',
      fs' p' = inr (RegularFile content' mtime' None) ->
      2 * chunk_size < Z.of_nat (length content) ->
      2 * chunk_size < Z.of_nat (length content') ->
      first_bytes chunk_size content' = first_bytes chunk_size content ->
      last_bytes chunk_size content' = last_bytes chunk_size content ->
      _hash_partial hashlib fs' p' algo chunk_size =
        _hash_partial hashlib fs p algo chunk_size).
Proof.
  intros Hcs Hfs. split; [| split].
  - now apply hash_stream_regular with (mtime := mtime).
  - destruct (Z.leb_spec (Z.of_nat (length content)) (2 * chunk_size)).
    + apply hash_partial_small with (content := content) (mtime := mtime) (oe := None);
        [assumption | lia].
    + apply hash_partial_large with (mtime := mtime); [assumption .. | lia].
  - intros fs' p' content' mtime' Hfs' Hl Hl' Hfirst Hlast.
    rewrite (hash_partial_large fs' p' algo chunk_size content' mtime')
      by (assumption || lia).
    rewrite (hash_partial_large fs p algo chunk_size content mtime)
      by (assumption || lia).
    unfold framed. now rewrite Hfirst, Hlast.
Qed.

End HashingFacts.

Lemma partial_digest_determined_witness :
  _hash_partial toy_hashlib toy_fs movie "blake2b" 3 = Ok "#FIRST012LAST789"%string.
Proof.
  destruct (partial_digest_determined toy_hashlib toy_fs movie "blake2b" 3
              movie_content 100) as [_ [H _]].
  - lia.
  - reflexivity.
  - rewrite H. reflexivity.
Defined.

(* ------------------------------------------------------------------ *)
(** ** Dictionaries *)

Section DictFacts.
Context {K V : Type}.
Variable eqb : K -> K -> bool.
Hypothesis eqb_eq : forall a b, eqb a b = true <-> a = b.

Lemma eqb_refl_of a : eqb a a = true.
Proof. now apply eqb_eq. Qed.

Lemma eqb_neq a b : a <> b -> eqb a b = false.
Proof.
  intros Hne. destruct (eqb a b) eqn:E; [| reflexivity].
  apply eqb_eq in E. contradiction.
Qed.

Lemma dict_get_set_same (d : dict K V) k v :
  dict_get eqb (dict_set eqb d k v) k = Some v.
Proof.
  induction d as [| [k' v'] d IH]; simpl.
  - now rewrite eqb_refl_of.
  - destruct (eqb k' k) eqn:E; simpl; rewrite E; [reflexivity | exact IH].
Qed.

Lemma dict_get_set_other (d : dict K V) k v k0 :
  k0 <> k -> dict_get eqb (dict_set eqb d k v) k0 = dict_get eqb d k0.
Proof.
  intros Hne. induction d as [| [k' v'] d IH]; simpl.
  - rewrite eqb_neq; [reflexivity | congruence].
  - destruct (eqb k' k) eqn:E; simpl.
    + apply eqb_eq in E. subst k'. rewrite eqb_neq; [| congruence].
      reflexivity.
    + destruct (eqb k' k0); [reflexivity | exact IH].
Qed.

Lemma dict_set_keys_in (d : dict K V) k v k0 :
  In k0 (keys (dict_set eqb d k v)) <-> k0 = k \/ In k0 (keys d).
Proof.
  unfold keys. induction d as [| [k' v'] d IH]; simpl.
  - intuition.
  - destruct (eqb k' k) eqn:E; simpl.
    + apply eqb_eq in E. subst k'. intuition.
    + rewrite IH. intuition.
Qed.

Lemma dict_set_keys_NoDup (d : dict K V) k v :
  NoDup (keys d) -> NoDup (keys (dict_set eqb d k v)).
Proof.
  unfold keys. induction d as [| [k' v'] d IH]; simpl; intros Hnd.
  - constructor; [intros [] | constructor].
  - inversion Hnd as [| ? ? Hnotin Hnd']; subst.
    destruct (eqb k' k) eqn:E; simpl.
    + constructor; assumption.
    + constructor; [| now apply IH].
      intros Hin. apply (dict_set_keys_in d k v k') in Hin.
      destruct Hin as [-> | Hin]; [| contradiction].
      rewrite eqb_refl_of in E. discriminate.
Qed.

Lemma dict_set_in (d : dict K V) k v k0 v0 :
  In (k0, v0) (dict_set eqb d k v) ->
  (k0 = k /\ v0 = v) \/ In (k0, v0) d.
Proof.
  induction d as [| [k' v'] d IH]; simpl.
  - intros [H | []]. injection H as <- <-. now left.
  - destruct (eqb k' k) eqn:E; simpl.
    + apply eqb_eq in E. subst k'.
      intros [H | H]; [injection H as <- <-; now left | now right; right].
    + intros [H | H]; [now right; left |].
      destruct (IH H) as [? | ?]; [now left | now right; right].
Qed.

Lemma dict_get_in (d : dict K V) k v :
  dict_get eqb d k = Some v -> In (k, v) d.
Proof.
  induction d as [| [k' v'] d IH]; simpl; [discriminate |].
  destruct (eqb k' k) eqn:E.
  - apply eqb_eq in E. subst k'. intros H. injection H as <-. now left.
  - intros H. right. now apply IH.
Qed.

Lemma dict_in_get (d : dict K V) k v :
  NoDup (keys d) -> In (k, v) d -> dict_get eqb d k = Some v.
Proof.
  unfold keys. induction d as [| [k' v'] d IH]; simpl; [intros _ [] |].
  intros Hnd [H | H].
  - injection H as -> ->. now rewrite eqb_refl_of.
  - inversion Hnd as [| ? ? Hnotin Hnd']; subst.
    destruct (eqb k' k) eqn:E.
    + apply eqb_eq in E. subst k'. exfalso. apply Hnotin.
      now apply (in_map fst) in H.
    + now apply IH.
Qed.

End DictFacts.

Lemma mem_string_In s l : mem_string s l = true <-> In s l.
Proof.
  unfold mem_string. rewrite existsb_exists. split.
  - intros [x [Hin Heq]]. apply String.eqb_eq in Heq. now subst.
  - intros Hin. exists s. split; [assumption | apply String.eqb_refl].
Qed.

(* ------------------------------------------------------------------ *)
(** ** Reconciliation and output *)

Lemma reconcile_loop D S acc :
  fold_left
    (fun missing '(h, fi) =>
       if negb (mem_string h (keys D)) then (missing ++ [path fi])%list
       else missing) S acc
  = (acc ++ map (fun e => path (snd e)) (filter (absent_from D) S))%list.
Proof.
  revert acc. induction S as [| [h fi] S IH]; intros acc; simpl.
  - now rewrite app_nil_r.
  - rewrite IH. unfold absent_from at 2. simpl.
    destruct (negb (mem_string h (keys D))); simpl.
    + now rewrite <- app_assoc.
    + reflexivity.
Qed.

Lemma reconcile_filter S D :
  reconcile S D = map (fun e => path (snd e)) (filter (absent_from D) S).
Proof. unfold reconcile. now rewrite reconcile_loop. Qed.

Lemma absent_from_spec D e : absent_from D e = true <-> ~ In (fst e) (keys D).
Proof.
  unfold absent_from. rewrite negb_true_iff, <- not_true_iff_false.
  now rewrite mem_string_In.
Qed.

Lemma emit_all fs args missing recs :
  Forall2 (fun p r => build_record fs args p = Ok r) missing recs ->
  emit fs args missing = (flat_map (print_record (a_format args)) recs, Ok tt).
Proof.
  induction 1 as [| p r missing recs Hp _ IH]; simpl.
  - reflexivity.
  - rewrite Hp, IH. reflexivity.
Qed.

Lemma build_record_src fs args p r :
  build_record fs args p = Ok r -> rec_src r = path_str p.
Proof.
  unfold build_record.
  destruct (relative_to _ _); simpl; [| discriminate].
  destruct (stat fs p); simpl; [| discriminate].
  destruct (find_subtitles_for fs p); simpl; [| discriminate].
  intros H. injection H as <-. reflexivity.
Qed.

Lemma print_jsonl recs : flat_map (print_record jsonl) recs = map JsonLine recs.
Proof. induction recs as [| r recs IH]; simpl; [| rewrite IH]; reflexivity. Qed.

(** C2. The reconciliation lists the path of every entry of the source
    mapping whose digest is no key of the destination mapping, once, in the
    order of the source mapping, and nothing for the other entries; when
    the record of each listed file is built, the output holds these
    records, one for each, in that order. *)
Theorem missing_records_follow_source fs args S D :
  reconcile S D = map (fun e => path (snd e)) (filter (absent_from D) S) /\
  (forall e, absent_from D e = true <-> ~ In (fst e) (keys D)) /\
  (forall recs,
      Forall2 (fun p r => build_record fs args p = Ok r) (reconcile S D) recs ->
      map rec_src recs
        = map (fun e => path_str (path (snd e))) (filter (absent_from D) S) /\
      (recs <> [] ->
       report fs args S D = (flat_map (print_record (a_format args)) recs, Ok 0)) /\
      flat_map (print_record jsonl) recs = map JsonLine recs).
Proof.
  split; [apply reconcile_filter |].
  split; [apply absent_from_spec |].
  intros recs Hall. split; [| split].
  - rewrite reconcile_filter in Hall.
    remember (filter (absent_from D) S) as entries eqn:He. clear He.
    revert recs Hall. induction entries as [| e entries IH]; intros recs Hall;
      inversion Hall as [| p r ps rs Hp Hrest]; subst; simpl.
    + reflexivity.
    + rewrite (build_record_src _ _ _ _ Hp). f_equal. now apply IH.
  - intros Hne. unfold report.
    destruct (reconcile S D) as [| p missing] eqn:Hm.
    + inversion Hall. congruence.
    + rewrite (emit_all fs args (p :: missing) recs Hall). reflexivity.
  - apply print_jsonl.
Qed.

Lemma missing_records_follow_source_witness :
  reconcile toy_src_hashes toy_dst_hashes = [movie] /\
  report toy_fs (toy_args jsonl) toy_src_hashes toy_dst_hashes
    = ([JsonLine movie_record], Ok 0).
Proof.
  destruct (missing_records_follow_source toy_fs (toy_args jsonl)
              toy_src_hashes toy_dst_hashes) as [Hmissing [_ Hrecs]].
  split; [rewrite Hmissing; reflexivity |].
  destruct (Hrecs [movie_record]) as [_ [Hreport _]].
  - rewrite Hmissing. simpl. repeat constructor.
  - apply Hreport. discriminate.
Defined.

Lemma is_dir_exists fs p : is_dir fs p = true -> path_exists fs p = true.
Proof. unfold is_dir, path_exists. destruct (fs p); [discriminate | reflexivity]. Qed.

Lemma reconcile_nil S D :
  (forall h, In h (keys S) -> In h (keys D)) -> reconcile S D = [].
Proof.
  intros Hsub. rewrite reconcile_filter.
  replace (filter (absent_from D) S) with (@nil (string * FileInfo)); [reflexivity |].
  symmetry. induction S as [| e S IH]; simpl; [reflexivity |].
  assert (He : absent_from D e = false).
  { apply not_true_iff_false. rewrite absent_from_spec. intros Hn. apply Hn.
    apply Hsub. now left. }
  rewrite He. apply IH. intros h Hin. apply Hsub. now right.
Qed.

Section MainFacts.

Variable hashlib : string -> option (list byte -> string).
Variable as_completed : list FileInfo -> list FileInfo.
Variable os_walk : Path -> bool -> list (Path * list string * list string).
Variable py_float : string -> result pyfloat.

(** C10. A run that reaches the reconciliation and finds every digest of
    the source mapping among the keys of the destination mapping returns
    0; it writes nothing to the standard output in [jsonl] mode and the
    one line ["All matched."] in [text] mode. *)
Theorem all_matched_exit_zero fs db args min_size src_run dst_run :
  parse_size py_float (a_min_size args) = Ok min_size ->
  is_dir fs (a_src args) = true ->
  is_dir fs (a_dst args) = true ->
  hash_map hashlib as_completed fs
           (collect_video_files os_walk fs (a_src args) min_size
                                (a_follow_symlinks args))
           (a_algo args) (a_method args) (a_chunk_size args) (a_workers args)
           (if cache_enabled args then Some db else None) = Ok src_run ->
  hash_map hashlib as_completed fs
           (collect_video_files os_walk fs (a_dst args) min_size
                                (a_follow_symlinks args))
           (a_algo args) (a_method args) (a_chunk_size args) (a_workers args)
           (hm_cache src_run) = Ok dst_run ->
  (forall h, In h (keys (hm_out src_run)) -> In h (keys (hm_out dst_run))) ->
  let r := main hashlib as_completed os_walk py_float fs db args in
  run_exit r = Ok 0 /\
  exit_status r = 0 /\
  run_stdout r = match a_format args with
                 | text => [TextLine "All matched."]
                 | jsonl => []
                 end.
Proof.
  intros Hsize Hsrc Hdst Hsrun Hdrun Hall r. subst r.
  unfold exit_status, main.
  rewrite Hsize, Hsrc, Hdst, (is_dir_exists _ _ Hsrc), (is_dir_exists _ _ Hdst).
  simpl. rewrite Hsrun, Hdrun.
  unfold report. rewrite (reconcile_nil _ _ Hall). simpl.
  repeat split; reflexivity.
Qed.

End MainFacts.

Lemma all_matched_exit_zero_witness :
  run_stdout (main toy_hashlib (fun l => l) (flat_walk mirror_fs) decimal_float
                   mirror_fs empty_cache (toy_args text))
  = [TextLine "All matched."].
Proof.
  refine (proj2 (proj2 (all_matched_exit_zero toy_hashlib (fun l => l)
            (flat_walk mirror_fs) decimal_float mirror_fs empty_cache
            (toy_args text) 5
            _ _ eq_refl eq_refl eq_refl eq_refl eq_refl _))).
  intros h Hin. vm_compute in Hin. vm_compute.
  destruct Hin as [<- | []]. now left.
Defined.

(* ------------------------------------------------------------------ *)
(** ** The fingerprint cache *)

Module CacheFacts.
Import HashCache.

Lemma selects_iff p m s me a k r :
  selects p m s me a k r = true <-> key_of r = (path_str p, m, s, me, a, k).
Proof.
  unfold selects, key_of. rewrite !andb_true_iff, !String.eqb_eq, !Z.eqb_eq.
  split.
  - intros [[[[[-> ->] ->] ->] ->] ->]. reflexivity.
  - intros H. injection H as -> -> -> -> -> ->. repeat split.
Qed.

Lemma selects_path p m s me a k r :
  selects p m s me a k r = true -> r_path r = path_str p.
Proof. rewrite selects_iff. unfold key_of. intros H. now injection H. Qed.

Lemma find_none_iff {A} (f : A -> bool) l :
  find f l = None <-> (forall x, In x l -> f x = false).
Proof.
  split.
  - intros H x Hin. exact (find_none f l H x Hin).
  - induction l as [| y l IH]; simpl; [reflexivity |].
    intros H. rewrite (H y (or_introl eq_refl)). apply IH.
    intros x Hin. apply H. now right.
Qed.

Lemma find_app_skip {A} (f : A -> bool) l1 l2 :
  (forall x, In x l1 -> f x = false) -> find f (l1 ++ l2) = find f l2.
Proof.
  induction l1 as [| y l1 IH]; simpl; [reflexivity |].
  intros H. rewrite (H y (or_introl eq_refl)). apply IH.
  intros x Hin. apply H. now right.
Qed.

(** After [REPLACE INTO], a lookup under the path of the new row sees the
    new row and no other. *)
Lemma get_after_replace rows new p m s me a k :
  r_path new = path_str p ->
  find (selects p m s me a k) (replace_into rows new)
  = if selects p m s me a k new then Some new else None.
Proof.
  intros Hpath. unfold replace_into. rewrite find_app_skip.
  - simpl. destruct (selects p m s me a k new); reflexivity.
  - intros r Hin. apply filter_In in Hin. destruct Hin as [_ Hne].
    apply not_true_iff_false. intros Hsel. apply selects_path in Hsel.
    rewrite Hsel, Hpath, String.eqb_refl in Hne. discriminate.
Qed.

Lemma replace_into_paths rows new :
  NoDup (map r_path rows) -> NoDup (map r_path (replace_into rows new)).
Proof.
  intros Hnd. unfold replace_into. rewrite map_app. simpl.
  apply NoDup_app.
  - induction rows as [| r rows IH]; simpl; [constructor |].
    inversion Hnd as [| ? ? Hnotin Hnd']; subst.
    destruct (negb (r_path r =? r_path new)%string); simpl; [| now apply IH].
    constructor; [| now apply IH].
    intros Hin. apply Hnotin. apply in_map_iff in Hin.
    destruct Hin as [x [Hx Hin]]. apply filter_In in Hin.
    apply in_map_iff. exists x. tauto.
  - constructor; [intros [] | constructor].
  - intros x Hin [<- | []]. apply in_map_iff in Hin.
    destruct Hin as [r [Hr Hin]]. apply filter_In in Hin.
    destruct Hin as [_ Hne]. rewrite Hr, String.eqb_refl in Hne. discriminate.
Qed.

Lemma replace_into_one_row rows new :
  length (filter (fun r => String.eqb (r_path r) (r_path new))
                 (replace_into rows new)) = 1%nat.
Proof.
  unfold replace_into. rewrite filter_app, length_app. simpl.
  rewrite String.eqb_refl. simpl.
  replace (filter _ (filter _ rows)) with (@nil Row); [reflexivity |].
  symmetry. induction rows as [| r rows IH]; simpl; [reflexivity |].
  destruct (r_path r =? r_path new)%string eqn:E; simpl; [exact IH |].
  rewrite E. exact IH.
Qed.

End CacheFacts.

(** C3, as the table is declared.  The primary key of [filehash] is the
    path alone, so the cache keeps one row for each path.  After a store
    under one tuple and a store for the same path under another, a lookup
    under the second tuple returns the second digest, a lookup under the
    first tuple returns nothing when the tuples differ, the table holds
    one row for the path, and distinct rows keep distinct paths.  A lookup
    whose six values differ from those of every row returns nothing. *)
Theorem cache_one_row_per_path c p m1 s1 me1 a1 k1 d1 m2 s2 me2 a2 k2 d2 c1 c2 :
  HashCache.set c p m1 s1 me1 a1 k1 d1 = Ok c1 ->
  HashCache.set c1 p m2 s2 me2 a2 k2 d2 = Ok c2 ->
  HashCache.get c2 p m2 s2 me2 a2 k2 = Some d2 /\
  ((m1, s1, me1, a1, k1) <> (m2, s2, me2, a2, k2) ->
   HashCache.get c2 p m1 s1 me1 a1 k1 = None) /\
  length (filter (fun r => String.eqb (HashCache.r_path r) (path_str p))
                 (HashCache.table c2)) = 1%nat /\
  (NoDup (map HashCache.r_path (HashCache.table c)) ->
   NoDup (map HashCache.r_path (HashCache.table c2))) /\
  (forall q m s me a k,
      (forall r, In r (HashCache.table c2) ->
                 HashCache.key_of r <> (path_str q, m, s, me, a, k)) ->
      HashCache.get c2 q m s me a k = None).
Proof.
  unfold HashCache.set. intros H1 H2.
  destruct (HashCache.write_fails c _); [discriminate |].
  injection H1 as <-. simpl in H2.
  destruct (HashCache.write_fails c _); [discriminate |].
  injection H2 as <-. unfold HashCache.get. simpl.
  repeat split.
  - rewrite CacheFacts.get_after_replace by reflexivity.
    unfold HashCache.selects. simpl.
    now rewrite !String.eqb_refl, !Z.eqb_refl.
  - intros Hne. rewrite CacheFacts.get_after_replace by reflexivity.
    match goal with |- context [HashCache.selects ?p ?m ?s ?me ?a ?k ?r] =>
      destruct (HashCache.selects p m s me a k r) eqn:E end; [| reflexivity].
    apply CacheFacts.selects_iff in E. unfold HashCache.key_of in E. simpl in E.
    exfalso. apply Hne. congruence.
  - apply (CacheFacts.replace_into_one_row _
             {| HashCache.r_path := path_str p; HashCache.r_mtime := m2;
                HashCache.r_size := s2; HashCache.r_method := me2;
                HashCache.r_algo := a2; HashCache.r_chunk_size := k2;
                HashCache.r_hash := d2 |}).
  - intros Hnd. now do 2 apply CacheFacts.replace_into_paths.
  - intros q m s me a k Hall.
    match goal with |- match ?f with _ => _ end = _ =>
      replace f with (@None HashCache.Row); [reflexivity |] end.
    symmetry. apply CacheFacts.find_none_iff. intros r Hin.
    apply not_true_iff_false. rewrite CacheFacts.selects_iff. now apply Hall.
Qed.

Lemma cache_one_row_per_path_witness :
  HashCache.get restored_cache movie 200 10 "partial" "blake2b" 3 = Some "d2"%string /\
  HashCache.get restored_cache movie 100 10 "partial" "blake2b" 3 = None.
Proof.
  destruct (cache_one_row_per_path empty_cache movie
              100 10 "partial" "blake2b" 3 "d1"
              200 10 "partial" "blake2b" 3 "d2" _ restored_cache
              eq_refl eq_refl)
    as [Hnew [Hold _]].
  split; [exact Hnew | apply Hold; discriminate].
Defined.

(** The specification's reading of C3 fails: the second store replaces the
    row of the path, and the lookup under the first tuple finds nothing. *)
Lemma old_tuple_lookup_counterexample :
  (c1 <- HashCache.set empty_cache movie 100 10 "partial" "blake2b" 3 "d1" ;;
   c2 <- HashCache.set c1 movie 200 10 "partial" "blake2b" 3 "d2" ;;
   Ok (HashCache.get c2 movie 100 10 "partial" "blake2b" 3,
       HashCache.get c2 movie 200 10 "partial" "blake2b" 3,
       length (HashCache.table c2)))
  = Ok (None, Some "d2"%string, 1%nat).
Proof. reflexivity. Qed.

(* ------------------------------------------------------------------ *)
(** ** Mappings filled by assignments *)

Lemma assign_all_app ws1 ws2 out :
  assign_all (ws1 ++ ws2) out = assign_all ws2 (assign_all ws1 out).
Proof. unfold assign_all. apply fold_left_app. Qed.

Lemma assign_all_NoDup ws out :
  NoDup (keys out) -> NoDup (keys (assign_all ws out)).
Proof.
  revert out. induction ws as [| w ws IH]; intros out Hnd; simpl; [assumption |].
  apply IH. apply dict_set_keys_NoDup; [apply String.eqb_eq | assumption].
Qed.

Lemma assign_all_keys ws out k :
  In k (keys (assign_all ws out)) <-> In k (keys out) \/ In k (map fst ws).
Proof.
  revert out. induction ws as [| w ws IH]; intros out; simpl.
  - tauto.
  - rewrite IH, (dict_set_keys_in String.eqb String.eqb_eq). intuition.
Qed.

Lemma assign_all_in ws out k v :
  In (k, v) (assign_all ws out) -> In (k, v) out \/ In (k, v) ws.
Proof.
  revert out. induction ws as [| [k' v'] ws IH]; intros out; simpl.
  - tauto.
  - intros Hin. apply IH in Hin. destruct Hin as [Hin | Hin]; [| tauto].
    apply (dict_set_in String.eqb String.eqb_eq) in Hin.
    destruct Hin as [[-> ->] | Hin]; tauto.
Qed.

Lemma assign_all_get ws out d :
  dict_get String.eqb (assign_all ws out) d
  = match last_writer ws d with
    | Some fi => Some fi
    | None => dict_get String.eqb out d
    end.
Proof.
  unfold last_writer. revert out. induction ws as [| [k v] ws IH]; intros out; simpl.
  - reflexivity.
  - rewrite IH. clear IH.
    assert (Hfind : forall (l1 : list (string * FileInfo)) w,
               find (fun w => String.eqb (fst w) d) (l1 ++ [w])
               = match find (fun w => String.eqb (fst w) d) l1 with
                 | Some x => Some x
                 | None => if String.eqb (fst w) d then Some w else None
                 end).
    { intros l1 w. induction l1 as [| x l1 IHl]; simpl.
      - destruct (fst w =? d)%string; reflexivity.
      - destruct (fst x =? d)%string; [reflexivity | exact IHl]. }
    rewrite Hfind. simpl.
    destruct (find _ (rev ws)) as [x |]; simpl; [reflexivity |].
    destruct (String.eqb_spec k d) as [-> | Hne]; simpl.
    + apply (dict_get_set_same String.eqb String.eqb_eq).
    + apply (dict_get_set_other String.eqb String.eqb_eq). congruence.
Qed.

Lemma last_writer_some ws d :
  In d (map fst ws) -> exists fi, last_writer ws d = Some fi.
Proof.
  intros Hin. unfold last_writer.
  destruct (find (fun w => String.eqb (fst w) d) (rev ws)) as [w |] eqn:E.
  - now exists (snd w).
  - exfalso. apply in_map_iff in Hin. destruct Hin as [w [Hw Hin]].
    apply in_rev in Hin. apply (find_none _ _ E w) in Hin.
    rewrite Hw, String.eqb_refl in Hin. discriminate.
Qed.

(* ------------------------------------------------------------------ *)
(** ** The fingerprint engine *)

Section EngineFacts.

Variable hashlib : string -> option (list byte -> string).
Variable as_completed : list FileInfo -> list FileInfo.

(** Every future finishes, once. *)
Hypothesis as_completed_perm : forall l, Permutation (as_completed l) l.

Variables (fs : FileSystem) (algo method : string) (chunk_size : Z).

Lemma lookup_step_spec cache out to_hash fi :
  lookup_step fs algo method chunk_size cache (out, to_hash) fi
  = (match cached_digest fs algo method chunk_size cache fi with
     | Some d => dict_set String.eqb out d fi
     | None => out
     end,
     if needs_hash fs algo method chunk_size cache fi
     then (to_hash ++ [fi])%list else to_hash).
Proof.
  unfold lookup_step, needs_hash, cached_digest.
  destruct (stat fs (path fi)) as [st | e]; [| reflexivity].
  destruct cache as [c |]; [| reflexivity].
  destruct (HashCache.get c _ _ _ _ _ _) as [d |]; [| reflexivity].
  destruct (truthy d); reflexivity.
Qed.

Lemma lookup_fold cache l out to_hash :
  fold_left (lookup_step fs algo method chunk_size cache) l (out, to_hash)
  = (assign_all (cache_writes fs algo method chunk_size cache l) out,
     (to_hash ++ filter (needs_hash fs algo method chunk_size cache) l)%list).
Proof.
  revert out to_hash. induction l as [| fi l IH]; intros out to_hash;
    cbn [fold_left filter].
  - now rewrite app_nil_r.
  - rewrite lookup_step_spec, IH. unfold cache_writes at 2. simpl.
    fold (cache_writes fs algo method chunk_size cache l).
    rewrite assign_all_app.
    destruct (cached_digest fs algo method chunk_size cache fi) as [d |];
      destruct (needs_hash fs algo method chunk_size cache fi); simpl;
      rewrite <- ?app_assoc; reflexivity.
Qed.

Lemma complete_fold_out l out cache err :
  fst (fst (fold_left (complete_step hashlib fs algo method chunk_size) l
                      (out, cache, err)))
  = assign_all (hash_writes hashlib fs algo method chunk_size l) out.
Proof.
  revert out cache err. induction l as [| fi l IH]; intros out cache err; simpl.
  - reflexivity.
  - unfold hash_writes. simpl.
    fold (hash_writes hashlib fs algo method chunk_size l).
    rewrite assign_all_app.
    destruct (hash_file hashlib fs (path fi) algo method chunk_size) as [d | e]; simpl.
    + destruct cache as [c |]; [| apply IH].
      destruct (bind _ _); apply IH.
    + apply IH.
Qed.

Lemma complete_fold_err l out cache err :
  snd (fold_left (complete_step hashlib fs algo method chunk_size) l
                 (out, cache, err))
  = (err ++ hash_errors hashlib fs algo method chunk_size l)%list.
Proof.
  revert out cache err. induction l as [| fi l IH]; intros out cache err; simpl.
  - now rewrite app_nil_r.
  - unfold hash_errors. simpl.
    fold (hash_errors hashlib fs algo method chunk_size l).
    destruct (hash_file hashlib fs (path fi) algo method chunk_size) as [d | e]; simpl.
    + destruct cache as [c |]; [| apply IH].
      destruct (bind _ _); apply IH.
    + rewrite IH. now rewrite <- app_assoc.
Qed.

Lemma as_completed_nil : as_completed [] = [].
Proof. apply Permutation_nil. apply Permutation_sym, as_completed_perm. Qed.

Lemma as_completed_in l x : In x (as_completed l) <-> In x l.
Proof.
  split; apply Permutation_in;
    [apply as_completed_perm | apply Permutation_sym, as_completed_perm].
Qed.

Lemma hash_map_spec files workers cache r :
  hash_map hashlib as_completed fs files algo method chunk_size workers cache
  = Ok r ->
  hm_out r = assign_all (all_writes hashlib as_completed fs algo method chunk_size cache files) [] /\
  hm_hashed r = filter (needs_hash fs algo method chunk_size cache) (values files) /\
  hm_stderr r = hash_errors hashlib fs algo method chunk_size
                            (as_completed (hm_hashed r)).
Proof.
  unfold hash_map, all_writes. rewrite lookup_fold. simpl.
  destruct (filter _ (values files)) as [| fi0 to_hash] eqn:Hth.
  - intros H. injection H as <-. simpl.
    rewrite as_completed_nil. simpl. rewrite app_nil_r. auto.
  - destruct (workers <=? 0); [discriminate |].
    pose proof (complete_fold_out (as_completed (fi0 :: to_hash))
                  (assign_all (cache_writes fs algo method chunk_size cache
                                            (values files)) [])
                  cache []) as Hout.
    pose proof (complete_fold_err (as_completed (fi0 :: to_hash))
                  (assign_all (cache_writes fs algo method chunk_size cache
                                            (values files)) [])
                  cache []) as Herr.
    destruct (fold_left _ (as_completed (fi0 :: to_hash)) _) as [[out c] err].
    simpl in Hout, Herr. intros H. injection H as <-. simpl.
    rewrite assign_all_app. auto.
Qed.

Lemma hash_map_runs files workers cache :
  0 < workers ->
  exists r,
    hash_map hashlib as_completed fs files algo method chunk_size workers cache
    = Ok r.
Proof.
  intros Hw. unfold hash_map.
  destruct (fold_left _ (values files) _) as [out to_hash].
  destruct to_hash; [eexists; reflexivity |].
  destruct (Z.leb_spec workers 0); [lia |].
  destruct (fold_left _ _ _) as [[out' c] err]. eexists; reflexivity.
Qed.

End EngineFacts.

(* ------------------------------------------------------------------ *)
(** ** The tree scanner *)

Lemma scan_entry_ok fs min_size files d fname :
  (forall p fi, In (p, fi) files -> scanned_ok fs min_size p fi) ->
  forall p fi, In (p, fi) (scan_entry fs min_size files d fname) ->
               scanned_ok fs min_size p fi.
Proof.
  intros Hfiles p fi. unfold scan_entry, stat, is_file.
  remember (mem_string (lower (suffix (path_join d fname))) VIDEO_EXTS) as ext
    eqn:Hext.
  destruct (fs (path_join d fname)) as [e | n] eqn:Hfs; [apply Hfiles |].
  destruct n as [content mtime oe | |]; simpl; try apply Hfiles.
  destruct (Z.ltb_spec (Z.of_nat (length content)) min_size); [apply Hfiles |].
  destruct ext; simpl; [| apply Hfiles]. symmetry in Hext.
  intros Hin. apply (dict_set_in path_eqb path_eqb_eq) in Hin.
  destruct Hin as [[-> ->] | Hin]; [| now apply Hfiles].
  unfold scanned_ok. simpl. repeat split; try assumption.
  exists content, mtime, oe. repeat split; [assumption | lia].
Qed.

Section ScannerFacts.

Variable os_walk : Path -> bool -> list (Path * list string * list string).

Lemma collect_ok fs root min_size follow p fi :
  In (p, fi) (collect_video_files os_walk fs root min_size follow) ->
  scanned_ok fs min_size p fi.
Proof.
  unfold collect_video_files.
  assert (Hgen : forall (walk : list (Path * list string * list string)) files,
             (forall p fi, In (p, fi) files -> scanned_ok fs min_size p fi) ->
             forall p fi,
               In (p, fi)
                  (fold_left
                     (fun files '(dirpath, _, filenames) =>
                        fold_left (fun files fname =>
                                     scan_entry fs min_size files dirpath fname)
                                  filenames files) walk files) ->
               scanned_ok fs min_size p fi).
  { induction walk as [| [[d dirnames] filenames] walk IH]; intros files Hfiles;
      simpl; [exact Hfiles |].
    apply IH. clear IH. revert files Hfiles.
    induction filenames as [| fname filenames IHf]; intros files Hfiles; simpl;
      [exact Hfiles |].
    apply IHf. now apply scan_entry_ok. }
  apply Hgen. intros ? ? [].
Qed.

End ScannerFacts.

Section FingerprintSets.

Variable hashlib : string -> option (list byte -> string).
Variable as_completed : list FileInfo -> list FileInfo.
Hypothesis as_completed_perm : forall l, Permutation (as_completed l) l.
Variable os_walk : Path -> bool -> list (Path * list string * list string).

(** A record of the mapping returned comes from the batch. *)
Lemma hash_map_values fs files algo method chunk_size workers cache r d fi :
  hash_map hashlib as_completed fs files algo method chunk_size workers cache
  = Ok r ->
  In (d, fi) (hm_out r) -> In fi (values files).
Proof.
  intros Hrun Hin.
  destruct (hash_map_spec hashlib as_completed as_completed_perm
              fs algo method chunk_size files workers cache r Hrun) as [Hout _].
  rewrite Hout in Hin. apply assign_all_in in Hin.
  destruct Hin as [[] | Hin]. unfold all_writes in Hin.
  apply in_app_or in Hin. destruct Hin as [Hin | Hin].
  - unfold cache_writes in Hin. apply in_flat_map in Hin.
    destruct Hin as [x [Hx Hin]].
    destruct (cached_digest _ _ _ _ _ x); [| destruct Hin].
    destruct Hin as [H | []]. injection H as _ <-. assumption.
  - unfold hash_writes in Hin. apply in_flat_map in Hin.
    destruct Hin as [x [Hx Hin]].
    destruct (hash_file _ _ _ _ _ _); [| destruct Hin].
    destruct Hin as [H | []]. injection H as _ <-.
    apply (proj1 (as_completed_in as_completed as_completed_perm _ _)) in Hx.
    apply filter_In in Hx. tauto.
Qed.

(** C4. Every entry of the mapping that the scan returns is a regular
    file with a video extension, compared in lower case, and a size of at
    least the minimum; a path that cannot be stat'ed is no key of it;
    and no file below the minimum is a record of a fingerprint mapping
    computed from a scan. *)
Theorem scan_keeps_large_videos fs root min_size follow :
  (forall p fi,
      In (p, fi) (collect_video_files os_walk fs root min_size follow) ->
      path fi = p /\
      is_file fs p = true /\
      mem_string (lower (suffix p)) VIDEO_EXTS = true /\
      (exists st, stat fs p = Ok st /\ st_size st = size fi) /\
      min_size <= size fi) /\
  (forall p e,
      fs p = inl e ->
      ~ In p (keys (collect_video_files os_walk fs root min_size follow))) /\
  (forall algo method chunk_size workers cache r f content mtime oe,
      hash_map hashlib as_completed fs
               (collect_video_files os_walk fs root min_size follow)
               algo method chunk_size workers cache = Ok r ->
      fs f = inr (RegularFile content mtime oe) ->
      Z.of_nat (length content) < min_size ->
      forall d fi, In (d, fi) (hm_out r) -> path fi <> f).
Proof.
  split; [| split].
  - intros p fi Hin. apply collect_ok in Hin.
    destruct Hin as [Hp [Hext [content [mtime [oe [Hfs [Hsize Hmin]]]]]]].
    unfold is_file, stat. rewrite Hfs. simpl.
    repeat split; auto. eexists. split; [reflexivity |]. simpl. now rewrite Hsize.
  - intros p e Hfs Hin. unfold keys in Hin. apply in_map_iff in Hin.
    destruct Hin as [[p' fi] [Hp Hin]]. simpl in Hp. subst p'.
    apply collect_ok in Hin.
    destruct Hin as [_ [_ [content [mtime [oe [Hfs' _]]]]]]. congruence.
  - intros algo method chunk_size workers cache r f content mtime oe
           Hrun Hfs Hsmall d fi Hin Hpath.
    apply (hash_map_values _ _ _ _ _ _ _ _ _ _ Hrun) in Hin.
    unfold values in Hin. apply in_map_iff in Hin.
    destruct Hin as [[p fi'] [Hfi Hin]]. simpl in Hfi. subst fi'.
    apply collect_ok in Hin.
    destruct Hin as [Hp [_ [content' [mtime' [oe' [Hfs' [Hsize Hmin]]]]]]].
    rewrite <- Hp, Hpath, Hfs in Hfs'. injection Hfs' as <- _ _. lia.
Qed.

End FingerprintSets.

Lemma scan_keeps_large_videos_witness :
  Forall (fun e => path (snd e) <> tiny) (hm_out toy_src_run).
Proof.
  apply Forall_forall. intros [d fi] Hin.
  destruct (scan_keeps_large_videos toy_hashlib (fun l => l)
              (fun l => Permutation_refl l) (flat_walk toy_fs)
              toy_fs src_dir 5 false) as [_ [_ H]].
  apply (H "blake2b"%string "partial"%string 3 2 (Some empty_cache) toy_src_run
           tiny (bytes "ab") 102 None eq_refl eq_refl ltac:(simpl; lia) d fi Hin).
Defined.

(* ------------------------------------------------------------------ *)
(** ** What the engine files, and under which digest *)

Section WriteFacts.

Variable hashlib : string -> option (list byte -> string).
Variable as_completed : list FileInfo -> list FileInfo.
Hypothesis as_completed_perm : forall l, Permutation (as_completed l) l.
Variables (fs : FileSystem) (algo method : string) (chunk_size : Z).
Variable cache : option HashCache.t.

Local Abbreviation cached := (cached_digest fs algo method chunk_size cache).
Local Abbreviation needs := (needs_hash fs algo method chunk_size cache).
Local Abbreviation fprint := (fingerprint hashlib fs algo method chunk_size cache).
Local Abbreviation writes := (all_writes hashlib as_completed fs algo method chunk_size cache).

(** The lookup and the hashing of a file depend on its path alone. *)
Lemma cached_digest_path fi fj : path fi = path fj -> cached fi = cached fj.
Proof. unfold cached_digest. now intros ->. Qed.

Lemma needs_hash_path fi fj : path fi = path fj -> needs fi = needs fj.
Proof.
  intros H. unfold needs_hash. rewrite (cached_digest_path fi fj H). now rewrite H.
Qed.


Lemma needs_hash_true fi :
  needs fi = true ->
  cached fi = None /\ exists st, stat fs (path fi) = Ok st.
Proof.
  unfold needs_hash. destruct (stat fs (path fi)) as [st | e]; [| discriminate].
  destruct (cached fi); [discriminate |]. intros _. split; [reflexivity | now exists st].
Qed.

Lemma in_cache_writes l d fi :
  In (d, fi) (cache_writes fs algo method chunk_size cache l)
  <-> In fi l /\ cached fi = Some d.
Proof.
  unfold cache_writes. rewrite in_flat_map. split.
  - intros [x [Hx Hin]]. destruct (cached x) as [dx |] eqn:E; [| destruct Hin].
    destruct Hin as [H | []]. injection H as <- <-. auto.
  - intros [Hin Hc]. exists fi. rewrite Hc. split; [assumption | now left].
Qed.

Lemma in_hash_writes l d fi :
  In (d, fi) (hash_writes hashlib fs algo method chunk_size l)
  <-> In fi l /\ hash_file hashlib fs (path fi) algo method chunk_size = Ok d.
Proof.
  unfold hash_writes. rewrite in_flat_map. split.
  - intros [x [Hx Hin]].
    destruct (hash_file hashlib fs (path x) algo method chunk_size) as [dx | e] eqn:E;
      [| destruct Hin].
    destruct Hin as [H | []]. injection H as <- <-. auto.
  - intros [Hin Hh]. exists fi. rewrite Hh. split; [assumption | now left].
Qed.

Lemma in_hash_errors l line :
  In line (hash_errors hashlib fs algo method chunk_size l)
  <-> exists fi e, In fi l /\
                   hash_file hashlib fs (path fi) algo method chunk_size = Raise e /\
                   line = HashErrorLine (path_str (path fi)) e.
Proof.
  unfold hash_errors. rewrite in_flat_map. split.
  - intros [x [Hx Hin]].
    destruct (hash_file hashlib fs (path x) algo method chunk_size) as [dx | e] eqn:E;
      [destruct Hin |].
    destruct Hin as [<- | []]. now exists x, e.
  - intros [fi [e [Hin [Hh ->]]]]. exists fi. rewrite Hh. split; [assumption | now left].
Qed.

(** The assignments are the files of the batch with their fingerprints. *)
Lemma in_all_writes files d fi :
  In (d, fi) (writes files) <-> In fi (values files) /\ fprint fi = Some d.
Proof.
  unfold all_writes. rewrite in_app_iff, in_cache_writes, in_hash_writes.
  rewrite (as_completed_in as_completed as_completed_perm), filter_In.
  unfold fingerprint. split.
  - intros [[Hin Hc] | [[Hin Hn] Hh]].
    + rewrite Hc. auto.
    + destruct (needs_hash_true fi Hn) as [Hc _]. rewrite Hc, Hn, Hh. auto.
  - intros [Hin Hf]. destruct (cached fi) as [dc |] eqn:Hc.
    + left. injection Hf as ->. auto.
    + right. destruct (needs fi) eqn:Hn; [| discriminate].
      destruct (hash_file hashlib fs (path fi) algo method chunk_size);
        [| discriminate].
      injection Hf as ->. auto.
Qed.

End WriteFacts.

Lemma count_occ_values_one (out : dict string FileInfo) d f :
  NoDup (keys out) ->
  In (d, f) out ->
  (forall k, In (k, f) out -> k = d) ->
  count_occ FileInfo_eq_dec (values out) f = 1%nat.
Proof.
  unfold keys, values. induction out as [| [k0 v0] out IH]; simpl; [intros _ [] |].
  intros Hnd Hin Hkey. inversion Hnd as [| ? ? Hnotin Hnd']; subst.
  destruct Hin as [H | Hin].
  - injection H as -> ->. destruct (FileInfo_eq_dec f f) as [_ | Hne]; [| congruence].
    f_equal. apply count_occ_not_In. intros Hf. apply in_map_iff in Hf.
    destruct Hf as [[k v] [Hv Hkv]]. simpl in Hv. subst v.
    apply Hnotin. rewrite <- (Hkey k (or_intror Hkv)).
    now apply (in_map fst) in Hkv.
  - destruct (FileInfo_eq_dec v0 f) as [-> | Hne].
    + exfalso. apply Hnotin. rewrite (Hkey k0 (or_introl eq_refl)).
      now apply (in_map fst) in Hin.
    + apply IH; auto.
Qed.

Lemma truthy_nonempty d : d <> EmptyString -> truthy d = true.
Proof.
  intros Hne. unfold truthy. destruct (String.eqb_spec d EmptyString); [contradiction | reflexivity].
Qed.

Section EngineClaims.

Variable hashlib : string -> option (list byte -> string).
Variable as_completed : list FileInfo -> list FileInfo.
Hypothesis as_completed_perm : forall l, Permutation (as_completed l) l.
Variables (fs : FileSystem) (algo method : string) (chunk_size : Z).

Local Abbreviation run := (hash_map hashlib as_completed fs).

(** A record of the mapping returned is a file of the batch, under its
    fingerprint. *)
Lemma hash_map_out_fingerprint files workers cache r d fj :
  run files algo method chunk_size workers cache = Ok r ->
  In (d, fj) (hm_out r) ->
  In fj (values files) /\
  fingerprint hashlib fs algo method chunk_size cache fj = Some d.
Proof.
  intros Hrun H.
  destruct (hash_map_spec hashlib as_completed as_completed_perm
              fs algo method chunk_size files workers cache r Hrun) as [Hout _].
  rewrite Hout in H. apply assign_all_in in H. destruct H as [[] | H].
  now apply (in_all_writes hashlib as_completed as_completed_perm) in H.
Qed.

(** C8. The mapping returned has one record for each digest.  It is the
    result of the assignments of the two loops, so the record under a
    digest is the last file assigned to it.  A file of the batch that has a
    fingerprint finds it among the keys; the record there is a file of the
    batch with this fingerprint, it occurs once in the mapping, and it is
    the file itself when no other file of the batch has the fingerprint;
    a file that lost its digest to another does not occur. *)
Theorem one_record_per_digest files workers cache r :
  run files algo method chunk_size workers cache = Ok r ->
  NoDup (keys (hm_out r)) /\
  (forall d, dict_get String.eqb (hm_out r) d
             = last_writer (all_writes hashlib as_completed fs algo method
                                       chunk_size cache files) d) /\
  (forall d fj, In (d, fj) (hm_out r) ->
                In fj (values files) /\
                fingerprint hashlib fs algo method chunk_size cache fj = Some d) /\
  (forall fi d,
      In fi (values files) ->
      fingerprint hashlib fs algo method chunk_size cache fi = Some d ->
      exists fj,
        dict_get String.eqb (hm_out r) d = Some fj /\
        In fj (values files) /\
        fingerprint hashlib fs algo method chunk_size cache fj = Some d /\
        count_occ FileInfo_eq_dec (values (hm_out r)) fj = 1%nat /\
        (fj <> fi -> count_occ FileInfo_eq_dec (values (hm_out r)) fi = 0%nat) /\
        ((forall fk, In fk (values files) ->
                     fingerprint hashlib fs algo method chunk_size cache fk = Some d ->
                     fk = fi) -> fj = fi)).
Proof.
  intros Hrun.
  destruct (hash_map_spec hashlib as_completed as_completed_perm
              fs algo method chunk_size files workers cache r Hrun) as [Hout _].
  assert (Hnd : NoDup (keys (hm_out r))).
  { rewrite Hout. apply assign_all_NoDup. constructor. }
  assert (Hget : forall d, dict_get String.eqb (hm_out r) d
                           = last_writer (all_writes hashlib as_completed fs algo
                                            method chunk_size cache files) d).
  { intros d. rewrite Hout, assign_all_get. simpl.
    now destruct (last_writer _ d). }
  assert (Hin : forall d fj, In (d, fj) (hm_out r) ->
                In fj (values files) /\
                fingerprint hashlib fs algo method chunk_size cache fj = Some d).
  { intros d fj H. now apply hash_map_out_fingerprint with (workers := workers) (r := r). }
  repeat split; try assumption; try (now apply Hin with (d := d)).
  intros fi d Hfi Hfp.
  assert (Hw : In (d, fi) (all_writes hashlib as_completed fs algo method
                             chunk_size cache files)).
  { now apply (in_all_writes hashlib as_completed as_completed_perm). }
  destruct (last_writer_some _ d (in_map fst _ _ Hw)) as [fj Hlast].
  assert (Hfj : In (d, fj) (hm_out r)).
  { apply (dict_get_in String.eqb String.eqb_eq). now rewrite Hget. }
  destruct (Hin d fj Hfj) as [Hfjin Hfjfp].
  assert (Hkey : forall f k, fingerprint hashlib fs algo method chunk_size cache f
                             = Some d -> In (k, f) (hm_out r) -> k = d).
  { intros f k Hf Hk. destruct (Hin k f Hk) as [_ Hk']. congruence. }
  exists fj. repeat split; try assumption.
  - now rewrite Hget.
  - apply count_occ_values_one with (d := d); auto.
    intros k. now apply Hkey.
  - intros Hne. apply count_occ_not_In. intros Hocc. apply Hne.
    unfold values in Hocc. apply in_map_iff in Hocc.
    destruct Hocc as [[k v] [Hv Hkv]]. simpl in Hv. subst v.
    rewrite (Hkey fi k Hfp Hkv) in Hkv.
    apply (dict_in_get String.eqb String.eqb_eq _ _ _ Hnd) in Hkv.
    apply (dict_in_get String.eqb String.eqb_eq _ _ _ Hnd) in Hfj. congruence.
  - intros Huniq. now apply Huniq.
Qed.


End EngineClaims.

Lemma one_record_per_digest_witness :
  dict_get String.eqb (hm_out twins_run) "#FIRST012LAST789"%string = Some twin_b /\
  count_occ FileInfo_eq_dec (values (hm_out twins_run)) twin_b = 1%nat /\
  count_occ FileInfo_eq_dec (values (hm_out twins_run)) twin_a = 0%nat.
Proof.
  destruct (one_record_per_digest toy_hashlib (fun l => l)
              (fun l => Permutation_refl l) twins_fs "blake2b" "partial" 3
              twins 2 None twins_run eq_refl) as [_ [_ [_ H]]].
  destruct (H twin_a "#FIRST012LAST789"%string) as [fj [Hget [_ [_ [Hone [Hzero _]]]]]].
  - simpl. now left.
  - reflexivity.
  - assert (Hfj : fj = twin_b) by (simpl in Hget; now injection Hget).
    subst fj. split; [exact Hget | split; [exact Hone | apply Hzero; discriminate]].
Defined.



Section CacheRoundTrip.

Variable hashlib : string -> option (list byte -> string).
Variable as_completed : list FileInfo -> list FileInfo.
Hypothesis as_completed_perm : forall l, Permutation (as_completed l) l.
Variables (fs : FileSystem) (algo method : string) (chunk_size : Z).

Lemma as_completed_one fi : as_completed [fi] = [fi].
Proof.
  apply Permutation_length_1_inv. apply Permutation_sym, as_completed_perm.
Qed.

Lemma cached_digest_hit c fi st d :
  stat fs (path fi) = Ok st ->
  HashCache.get c (path fi) (st_mtime st) (st_size st) method algo chunk_size
  = Some d ->
  d <> EmptyString ->
  cached_digest fs algo method chunk_size (Some c) fi = Some d.
Proof.
  intros Hstat Hget Hne. unfold cached_digest.
  now rewrite Hstat, Hget, (truthy_nonempty d Hne).
Qed.

(** C5. With a cache, a file whose present tuple the cache maps to a
    digest is filed under that digest and is given to no worker: the
    hashing function does not run on it.  So a file that is hashed and
    stored in a first run is, unchanged, filed under the same digest by a
    second run that hashes nothing. *)
Theorem cache_hit_skips_hashing :
  (forall files workers c fi st d r,
      In fi (values files) ->
      stat fs (path fi) = Ok st ->
      HashCache.get c (path fi) (st_mtime st) (st_size st) method algo chunk_size
      = Some d ->
      d <> EmptyString ->
      hash_map hashlib as_completed fs files algo method chunk_size workers
               (Some c) = Ok r ->
      In d (keys (hm_out r)) /\
      (forall f, In f (hm_hashed r) -> path f <> path fi)) /\
  (forall p fi c st d workers,
      stat fs (path fi) = Ok st ->
      cached_digest fs algo method chunk_size (Some c) fi = None ->
      hash_file hashlib fs (path fi) algo method chunk_size = Ok d ->
      d <> EmptyString ->
      HashCache.write_fails c
        {| HashCache.r_path := path_str (path fi);
           HashCache.r_mtime := st_mtime st; HashCache.r_size := st_size st;
           HashCache.r_method := method; HashCache.r_algo := algo;
           HashCache.r_chunk_size := chunk_size; HashCache.r_hash := d |}
      = false ->
      0 < workers ->
      exists r1 r2,
        hash_map hashlib as_completed fs [(p, fi)] algo method chunk_size
                 workers (Some c) = Ok r1 /\
        hm_out r1 = [(d, fi)] /\ hm_hashed r1 = [fi] /\
        hash_map hashlib as_completed fs [(p, fi)] algo method chunk_size
                 workers (hm_cache r1) = Ok r2 /\
        hm_out r2 = [(d, fi)] /\ hm_hashed r2 = []).
Proof.
  split.
  - intros files workers c fi st d r Hfi Hstat Hget Hne Hrun.
    pose proof (cached_digest_hit c fi st d Hstat Hget Hne) as Hc.
    destruct (hash_map_spec hashlib as_completed as_completed_perm
                fs algo method chunk_size files workers (Some c) r Hrun)
      as [Hout [Hhashed _]].
    split.
    + rewrite Hout. apply assign_all_keys. right.
      apply in_map_iff. exists (d, fi). split; [reflexivity |].
      apply (in_all_writes hashlib as_completed as_completed_perm).
      split; [assumption |]. unfold fingerprint. now rewrite Hc.
    + intros f Hf Hpath. rewrite Hhashed in Hf. apply filter_In in Hf.
      destruct Hf as [_ Hn]. apply needs_hash_true in Hn. destruct Hn as [Hn _].
      rewrite (cached_digest_path fs algo method chunk_size (Some c) f fi Hpath)
        in Hn. congruence.
  - intros p fi c st d workers Hstat Hmiss Hhash Hne Hwrite Hw.
    assert (Hneeds : needs_hash fs algo method chunk_size (Some c) fi = true).
    { unfold needs_hash. now rewrite Hstat, Hmiss. }
    set (c' := {| HashCache.table :=
                    HashCache.replace_into (HashCache.table c)
                      {| HashCache.r_path := path_str (path fi);
                         HashCache.r_mtime := st_mtime st;
                         HashCache.r_size := st_size st;
                         HashCache.r_method := method; HashCache.r_algo := algo;
                         HashCache.r_chunk_size := chunk_size;
                         HashCache.r_hash := d |};
                  HashCache.write_fails := HashCache.write_fails c |}).
    exists {| hm_out := [(d, fi)]; hm_cache := Some c';
              hm_stderr := []; hm_hashed := [fi] |}.
    exists {| hm_out := [(d, fi)]; hm_cache := Some c';
              hm_stderr := []; hm_hashed := [] |}.
    assert (Hhit : cached_digest fs algo method chunk_size (Some c') fi = Some d).
    { apply cached_digest_hit with (st := st); try assumption.
      unfold HashCache.get. subst c'. cbn [HashCache.table].
      rewrite CacheFacts.get_after_replace by reflexivity.
      unfold HashCache.selects. cbn.
      now rewrite !String.eqb_refl, !Z.eqb_refl. }
    repeat split.
    + unfold hash_map. cbn [values map snd fold_left].
      rewrite lookup_step_spec, Hmiss, Hneeds. cbn [app].
      destruct (Z.leb_spec workers 0); [lia |].
      rewrite as_completed_one. cbn [fold_left]. unfold complete_step.
      rewrite Hhash, Hstat. cbn [bind]. unfold HashCache.set.
      rewrite Hwrite. reflexivity.
    + unfold hash_map. cbn [values map snd fold_left hm_cache].
      rewrite lookup_step_spec, Hhit.
      assert (Hno : needs_hash fs algo method chunk_size (Some c') fi = false).
      { unfold needs_hash. now rewrite Hstat, Hhit. }
      rewrite Hno. reflexivity.
Qed.

End CacheRoundTrip.

Lemma cache_hit_skips_hashing_witness :
  exists r1 r2,
    hash_map toy_hashlib (fun l => l) toy_fs [(movie, movie_info)]
             "blake2b" "partial" 3 2 (Some empty_cache) = Ok r1 /\
    hm_hashed r1 = [movie_info] /\
    hash_map toy_hashlib (fun l => l) toy_fs [(movie, movie_info)]
             "blake2b" "partial" 3 2 (hm_cache r1) = Ok r2 /\
    hm_out r2 = hm_out r1 /\ hm_hashed r2 = [].
Proof.
  destruct (cache_hit_skips_hashing toy_hashlib (fun l => l)
              (fun l => Permutation_refl l) toy_fs "blake2b" "partial" 3)
    as [_ H].
  destruct (H movie movie_info empty_cache
              {| st_size := 10; st_mtime := 100 |} "#FIRST012LAST789"%string 2)
    as [r1 [r2 [H1 [Ho1 [Hh1 [H2 [Ho2 Hh2]]]]]]];
    try reflexivity; try discriminate; try lia.
  exists r1, r2. rewrite Ho1, Ho2. auto.
Defined.

(* ------------------------------------------------------------------ *)
(** ** The subtitle locator *)

(** [startswith] and [in] on strings are the prefix and the substring
    relations. *)
Lemma startswith_spec s p :
  startswith s p = true <-> exists rest, s = (p ++ rest)%string.
Proof.
  unfold startswith. revert s. induction p as [| a p IH]; intros s.
  - split; [intros _; now exists s | intros _; now destruct s].
  - destruct s as [| b s]; simpl.
    + split; [discriminate | intros [rest H]; discriminate].
    + destruct (ascii_dec a b) as [-> | Hne].
      * rewrite IH. split; intros [rest H]; exists rest;
          [now rewrite H | now injection H].
      * split; [discriminate | intros [rest H]; injection H as H _; congruence].
Qed.

Lemma contains_spec needle hay :
  contains needle hay = true <->
  exists before after, hay = (before ++ needle ++ after)%string.
Proof.
  induction hay as [| c hay IH]; cbn [contains]; rewrite orb_true_iff.
  - change (prefix needle EmptyString) with (startswith EmptyString needle).
    rewrite startswith_spec. split.
    + intros [[rest H] | H]; [| discriminate]. now exists EmptyString, rest.
    + intros [before [after H]]. left. destruct before; [| discriminate].
      now exists after.
  - change (prefix needle (String c hay)) with (startswith (String c hay) needle).
    rewrite startswith_spec, IH. split.
    + intros [[rest H] | [before [after H]]].
      * now exists EmptyString, rest.
      * exists (String c before), after. simpl. now rewrite H.
    + intros [before [after H]]. destruct before as [| b before].
      * left. now exists after.
      * right. simpl in H. injection H as _ H. now exists before, after.
Qed.

Lemma in_strict_tier fs src ps s :
  In s (strict_tier fs src ps) <->
  exists p, In p ps /\ s = path_str p /\
            is_file fs p = true /\
            mem_string (lower (suffix p)) SUB_EXTS = true /\
            (contains (lower (stem src)) (lower (stem p)) = true \/
             startswith (lower (stem p)) (lower (stem src)) = true).
Proof.
  unfold strict_tier, subtitle_file, strict_match. rewrite in_map_iff. split.
  - intros [p [Hs Hin]]. apply filter_In in Hin. destruct Hin as [Hin Hb].
    rewrite !andb_true_iff, orb_true_iff in Hb. exists p. intuition.
  - intros [p [Hin [Hs [Hf [Hext Hm]]]]]. exists p. split; [now symmetry |].
    apply filter_In. rewrite !andb_true_iff, orb_true_iff. tauto.
Qed.

Lemma in_loose_tier fs src ps s :
  In s (loose_tier fs src ps) <->
  exists p, In p ps /\ s = path_str p /\
            is_file fs p = true /\
            mem_string (lower (suffix p)) SUB_EXTS = true /\
            exists tok, In tok (split (lower (stem src))) /\
                        In tok (split (lower (stem p))).
Proof.
  unfold loose_tier, subtitle_file, loose_match. rewrite in_map_iff. split.
  - intros [p [Hs Hin]]. apply filter_In in Hin. destruct Hin as [Hin Hb].
    rewrite !andb_true_iff, existsb_exists in Hb.
    destruct Hb as [[Hf Hext] [tok [Htok Hmem]]]. apply mem_string_In in Hmem.
    exists p. repeat split; auto. now exists tok.
  - intros [p [Hin [Hs [Hf [Hext [tok [Hsrc Hp]]]]]]]. exists p.
    split; [now symmetry |]. apply filter_In. split; [assumption |].
    rewrite !andb_true_iff, existsb_exists. repeat split; auto.
    exists tok. split; [assumption | now apply mem_string_In].
Qed.

Lemma scan_pass_listed fs src out d ps :
  iterdir fs d = Ok ps ->
  scan_pass fs src out d
  = Ok (out ++ strict_tier fs src ps
            ++ match (out ++ strict_tier fs src ps)%list with
               | [] => loose_tier fs src ps
               | _ :: _ => []
               end)%list.
Proof.
  intros Hls. unfold scan_pass. rewrite Hls.
  destruct (out ++ strict_tier fs src ps)%list as [| s l] eqn:E.
  - apply app_eq_nil in E. destruct E as [-> ->]. reflexivity.
  - rewrite app_assoc, E. now rewrite app_nil_r.
Qed.




(* ------------------------------------------------------------------ *)
(** ** Size strings *)






(* ------------------------------------------------------------------ *)
(** * Further properties of the code *)

(** ** Hashing: what [hash_file] needs, and what it reads *)

Section HashFileFacts.

Variable hashlib : string -> option (list byte -> string).

Lemma hash_stream_ok fs p algo d :
  _hash_stream hashlib fs p algo = Ok d ->
  exists fn content mtime,
    hashlib algo = Some fn /\ fs p = inr (RegularFile content mtime None).
Proof.
  unfold _hash_stream, hashlib_new, path_open.
  destruct (hashlib algo) as [fn |]; simpl; [| discriminate].
  destruct (fs p) as [e | [content mtime [oe |] | |]]; simpl; try discriminate.
  intros _. now exists fn, content, mtime.
Qed.

Lemma hash_file_readable fs p algo method chunk_size d :
  hash_file hashlib fs p algo method chunk_size = Ok d ->
  exists fn content mtime,
    hashlib algo = Some fn /\ fs p = inr (RegularFile content mtime None).
Proof.
  unfold hash_file. destruct (String.eqb method "full"); [apply hash_stream_ok |].
  unfold _hash_partial, stat.
  destruct (fs p) as [e | n] eqn:Hfs; simpl; [discriminate |].
  destruct (st_size (node_stat n) <=? chunk_size * 2).
  - intros H. apply hash_stream_ok in H. now rewrite Hfs in H.
  - unfold hashlib_new, path_open. rewrite Hfs.
    destruct (hashlib algo) as [fn |]; simpl; [| discriminate].
    destruct n as [content mtime [oe |] | |]; simpl; try discriminate.
    intros _. now exists fn, content, mtime.
Qed.


Lemma hash_file_same_content fs fs' p q algo method chunk_size
      content mtime mtime' oe :
  fs p = inr (RegularFile content mtime oe) ->
  fs' q = inr (RegularFile content mtime' oe) ->
  hash_file hashlib fs p algo method chunk_size
  = hash_file hashlib fs' q algo method chunk_size.
Proof.
  intros Hp Hq.
  unfold hash_file, _hash_partial, _hash_stream, stat, path_open.
  rewrite Hp, Hq. reflexivity.
Qed.

(** X2. The digest of a file is a function of its bytes: two regular files
    with the same content get the same result from [hash_file], whatever
    their paths, their modification times and the file systems they live
    in, for every mode and chunk size. *)
Theorem hash_file_reads_content_only fs fs' p q algo method chunk_size
        content mtime mtime' oe :
  fs p = inr (RegularFile content mtime oe) ->
  fs' q = inr (RegularFile content mtime' oe) ->
  hash_file hashlib fs p algo method chunk_size
  = hash_file hashlib fs' q algo method chunk_size.
Proof. apply hash_file_same_content. Qed.


(** X4. With a chunk size of zero, partial mode reads nothing of a file
    that is not empty: all such files get the digest of the two markers,
    so they all collide. *)
Theorem partial_zero_chunk_collides fs fs' p q algo content content' mtime mtime' :
  fs p = inr (RegularFile content mtime None) ->
  fs' q = inr (RegularFile content' mtime' None) ->
  content <> [] -> content' <> [] ->
  _hash_partial hashlib fs p algo 0
  = digest_of hashlib algo (bytes "FIRST" ++ bytes "LAST")%list /\
  _hash_partial hashlib fs' q algo 0 = _hash_partial hashlib fs p algo 0.
Proof.
  intros Hp Hq Hne Hne'.
  assert (Hzero : forall g r c m, g r = inr (RegularFile c m None) -> c <> [] ->
             _hash_partial hashlib g r algo 0
             = digest_of hashlib algo (bytes "FIRST" ++ bytes "LAST")%list).
  { intros g r c m Hg Hc.
    rewrite (hash_partial_large hashlib g r algo 0 c m); try assumption; try lia.
    - unfold framed, first_bytes, last_bytes. simpl Z.to_nat.
      rewrite Nat.sub_0_r, skipn_all. reflexivity.
    - destruct c; [contradiction | simpl; lia]. }
  split; [now apply Hzero with (m := mtime) (c := content) |].
  rewrite (Hzero fs' q content' mtime' Hq Hne').
  now rewrite (Hzero fs p content mtime Hp Hne).
Qed.

End HashFileFacts.


Lemma hash_file_reads_content_only_witness :
  hash_file toy_hashlib mirror_fs movie "blake2b" "partial" 3
  = hash_file toy_hashlib mirror_fs [""; "dst"; "Copy.mkv"]%string
              "blake2b" "partial" 3.
Proof.
  apply (hash_file_reads_content_only toy_hashlib mirror_fs mirror_fs movie
           [""; "dst"; "Copy.mkv"]%string "blake2b" "partial" 3
           movie_content 100 200 None); reflexivity.
Defined.


Lemma partial_zero_chunk_collides_witness :
  _hash_partial toy_hashlib toy_fs tiny "blake2b" 0
  = _hash_partial toy_hashlib toy_fs movie "blake2b" 0.
Proof.
  apply (partial_zero_chunk_collides toy_hashlib toy_fs toy_fs movie tiny
           "blake2b" movie_content (bytes "ab") 100 102);
    try reflexivity; discriminate.
Defined.

(* ------------------------------------------------------------------ *)
(** ** The cache: lookups after a store *)

Module CacheMore.
Import HashCache.

Lemma find_filter_keeps {A} (f g : A -> bool) l :
  (forall x, f x = true -> g x = true) ->
  find f (filter g l) = find f l.
Proof.
  intros Himp. induction l as [| x l IH]; simpl; [reflexivity |].
  destruct (g x) eqn:Hg; simpl.
  - destruct (f x); [reflexivity | exact IH].
  - destruct (f x) eqn:Hf; [| exact IH].
    apply Himp in Hf. congruence.
Qed.

Lemma find_snoc {A} (f : A -> bool) l x :
  find f (l ++ [x]) = match find f l with
                      | Some y => Some y
                      | None => if f x then Some x else None
                      end.
Proof.
  induction l as [| y l IH]; simpl.
  - destruct (f x); reflexivity.
  - destruct (f y); [reflexivity | exact IH].
Qed.

(** A lookup under another path does not see the replacement. *)
Lemma find_replace_other rows new q m s me a k :
  path_str q <> r_path new ->
  find (selects q m s me a k) (replace_into rows new)
  = find (selects q m s me a k) rows.
Proof.
  intros Hne. unfold replace_into. rewrite find_snoc.
  rewrite find_filter_keeps.
  - destruct (find (selects q m s me a k) rows); [reflexivity |].
    destruct (selects q m s me a k new) eqn:E; [| reflexivity].
    apply CacheFacts.selects_path in E. congruence.
  - intros r Hsel. apply CacheFacts.selects_path in Hsel.
    apply negb_true_iff. apply String.eqb_neq. congruence.
Qed.

Lemma filter_length_le {A} (f : A -> bool) l : (length (filter f l) <= length l)%nat.
Proof.
  induction l as [| x l IH]; simpl; [lia |]. destruct (f x); simpl; lia.
Qed.

Lemma filter_out_one (ps : string) rows :
  NoDup (map r_path rows) ->
  In ps (map r_path rows) ->
  S (length (filter (fun r => negb (String.eqb (r_path r) ps)) rows))
  = length rows.
Proof.
  induction rows as [| r rows IH]; simpl; [intros _ [] |].
  intros Hnd Hin. inversion Hnd as [| ? ? Hnotin Hnd']; subst.
  destruct (String.eqb_spec (r_path r) ps) as [Heq | Hne]; simpl.
  - f_equal. clear IH Hin. subst ps.
    induction rows as [| x rows IHr]; simpl; [reflexivity |].
    simpl in Hnotin. inversion Hnd' as [| ? ? Hx Hnd'']; subst.
    destruct (String.eqb_spec (r_path x) (r_path r)) as [Heq | Hne]; simpl.
    + exfalso. apply Hnotin. now left.
    + f_equal. apply IHr; auto. constructor; auto.
  - f_equal. apply IH; [assumption |]. destruct Hin as [Heq | Hin]; [contradiction | assumption].
Qed.

End CacheMore.

(** X5. A store changes the lookups under its own path and no others: under
    the path stored, the tuple stored finds the digest stored and every
    other tuple finds nothing; under a path with another name the lookup
    answers as it did before the store. *)
Theorem lookup_after_store c p m s me a k d c' :
  HashCache.set c p m s me a k d = Ok c' ->
  HashCache.get c' p m s me a k = Some d /\
  (forall m' s' me' a' k',
      (m', s', me', a', k') <> (m, s, me, a, k) ->
      HashCache.get c' p m' s' me' a' k' = None) /\
  (forall q m' s' me' a' k',
      path_str q <> path_str p ->
      HashCache.get c' q m' s' me' a' k' = HashCache.get c q m' s' me' a' k').
Proof.
  unfold HashCache.set. destruct (HashCache.write_fails c _); [discriminate |].
  intros H. injection H as <-. unfold HashCache.get. simpl.
  split; [| split].
  - rewrite CacheFacts.get_after_replace by reflexivity.
    unfold HashCache.selects. simpl. now rewrite !String.eqb_refl, !Z.eqb_refl.
  - intros m' s' me' a' k' Hne.
    rewrite CacheFacts.get_after_replace by reflexivity.
    match goal with |- context [HashCache.selects ?p ?m ?s ?me ?a ?k ?r] =>
      destruct (HashCache.selects p m s me a k r) eqn:E end; [| reflexivity].
    apply CacheFacts.selects_iff in E. unfold HashCache.key_of in E. simpl in E.
    exfalso. apply Hne. congruence.
  - intros q m' s' me' a' k' Hne.
    now rewrite CacheMore.find_replace_other by (simpl; exact Hne).
Qed.

(** X6. A store adds at most one row, and none when the table, which holds
    no path twice, already has a row for the path: the row of a file that
    was modified is replaced, not kept beside the new one. *)
Theorem store_does_not_accumulate c p m s me a k d c' :
  HashCache.set c p m s me a k d = Ok c' ->
  (length (HashCache.table c') <= S (length (HashCache.table c)))%nat /\
  (NoDup (map HashCache.r_path (HashCache.table c)) ->
   NoDup (map HashCache.r_path (HashCache.table c')) /\
   (In (path_str p) (map HashCache.r_path (HashCache.table c)) ->
    length (HashCache.table c') = length (HashCache.table c))).
Proof.
  unfold HashCache.set. destruct (HashCache.write_fails c _); [discriminate |].
  intros H. injection H as <-. simpl. unfold HashCache.replace_into.
  rewrite length_app. simpl. split.
  - pose proof (CacheMore.filter_length_le
                  (fun r => negb (String.eqb (HashCache.r_path r) (path_str p)))
                  (HashCache.table c)). lia.
  - intros Hnd. split.
    + exact (CacheFacts.replace_into_paths (HashCache.table c)
               {| HashCache.r_path := path_str p; HashCache.r_mtime := m;
                  HashCache.r_size := s; HashCache.r_method := me;
                  HashCache.r_algo := a; HashCache.r_chunk_size := k;
                  HashCache.r_hash := d |} Hnd).
    + intros Hin.
      pose proof (CacheMore.filter_out_one (path_str p) (HashCache.table c) Hnd Hin).
      lia.
Qed.

Lemma lookup_after_store_witness :
  HashCache.get restored_cache movie 200 10 "partial" "blake2b" 3
  = Some "d2"%string.
Proof.
  apply (lookup_after_store
           {| HashCache.table :=
                [ {| HashCache.r_path := "/src/MovieA.mkv"; HashCache.r_mtime := 100;
                     HashCache.r_size := 10; HashCache.r_method := "partial";
                     HashCache.r_algo := "blake2b"; HashCache.r_chunk_size := 3;
                     HashCache.r_hash := "d1" |} ];
              HashCache.write_fails := fun _ => false |}
           movie 200 10 "partial" "blake2b" 3 "d2" restored_cache eq_refl).
Defined.

Lemma store_does_not_accumulate_witness :
  (length (HashCache.table restored_cache) <= 2)%nat.
Proof.
  apply (store_does_not_accumulate
           {| HashCache.table :=
                [ {| HashCache.r_path := "/src/MovieA.mkv"; HashCache.r_mtime := 100;
                     HashCache.r_size := 10; HashCache.r_method := "partial";
                     HashCache.r_algo := "blake2b"; HashCache.r_chunk_size := 3;
                     HashCache.r_hash := "d1" |} ];
              HashCache.write_fails := fun _ => false |}
           movie 200 10 "partial" "blake2b" 3 "d2" restored_cache eq_refl).
Defined.

(* ------------------------------------------------------------------ *)
(** ** Size strings: blanks, padding, bare byte counts *)



Lemma chars_app a b : chars (a ++ b)%string = (chars a ++ chars b)%list.
Proof. induction a as [| c a IH]; simpl; [reflexivity | now f_equal]. Qed.

Lemma drop_space_blank l : forallb is_space l = true -> drop_space l = [].
Proof.
  induction l as [| c l IH]; simpl; [reflexivity |].
  destruct (is_space c); [exact IH | discriminate].
Qed.

Lemma drop_space_app_blank ws l :
  forallb is_space ws = true -> drop_space (ws ++ l) = drop_space l.
Proof.
  induction ws as [| c ws IH]; simpl; [reflexivity |].
  destruct (is_space c); [exact IH | discriminate].
Qed.

Lemma drop_space_keeps_tail l ws :
  drop_space l <> [] -> drop_space (l ++ ws) = (drop_space l ++ ws)%list.
Proof.
  induction l as [| c l IH]; simpl; [congruence |].
  destruct (is_space c); [exact IH | reflexivity].
Qed.

Lemma forallb_rev {A} (f : A -> bool) l : forallb f (rev l) = forallb f l.
Proof.
  induction l as [| x l IH]; simpl; [reflexivity |].
  rewrite forallb_app, IH. simpl. rewrite andb_true_r. apply andb_comm.
Qed.

(** Stripping ignores whitespace around the string. *)
Lemma strip_padding ws1 s ws2 :
  blank ws1 = true -> blank ws2 = true ->
  strip (ws1 ++ s ++ ws2) = strip s.
Proof.
  unfold blank, strip. intros H1 H2. rewrite !chars_app. f_equal. f_equal.
  rewrite (drop_space_app_blank _ _ H1).
  destruct (drop_space (chars s)) as [| c l] eqn:E.
  - assert (Hall : forallb is_space (chars s) = true).
    { clear - E. induction (chars s) as [| x l IH]; simpl in *; [reflexivity |].
      destruct (is_space x); [now apply IH | discriminate]. }
    rewrite (drop_space_blank (chars s ++ chars ws2)); [reflexivity |].
    rewrite forallb_app, Hall, H2. reflexivity.
  - rewrite drop_space_keeps_tail by congruence. rewrite E, rev_app_distr.
    apply drop_space_app_blank. now rewrite forallb_rev.
Qed.

Section ParseSizeFacts.

Variable py_float : string -> result pyfloat.

(** X7. An empty size string, or one of whitespace only, makes
    [parse_size] raise [IndexError]: the test of the last character falls
    through to [s[-1]] on the empty string. *)
Theorem parse_size_blank s :
  blank s = true -> parse_size py_float s = Raise IndexError.
Proof.
  unfold blank. intros Hb. unfold parse_size, strip.
  rewrite (drop_space_blank _ Hb). reflexivity.
Qed.

(** X8. Whitespace around a size string does not change what
    [parse_size] makes of it. *)
Theorem parse_size_ignores_padding ws1 s ws2 :
  blank ws1 = true -> blank ws2 = true ->
  parse_size py_float (ws1 ++ s ++ ws2) = parse_size py_float s.
Proof.
  intros H1 H2. unfold parse_size. now rewrite (strip_padding ws1 s ws2 H1 H2).
Qed.










End ParseSizeFacts.

Lemma parse_size_blank_witness :
  parse_size decimal_float "   " = Raise IndexError.
Proof. apply (parse_size_blank decimal_float "   "). reflexivity. Defined.

Lemma parse_size_ignores_padding_witness :
  parse_size decimal_float "  1.5G " = parse_size decimal_float "1.5G".
Proof.
  apply (parse_size_ignores_padding decimal_float "  " "1.5G" " "); reflexivity.
Defined.


(* ------------------------------------------------------------------ *)
(** ** The scan: which paths it keeps *)

Section ScanMore.

Variable os_walk : Path -> bool -> list (Path * list string * list string).
Variable fs : FileSystem.
Variable min_size : Z.

Local Abbreviation entry_step :=
  (fun files fname d => scan_entry fs min_size files d fname).

Local Abbreviation dir_step :=
  (fun (files : dict Path FileInfo) (x : Path * list string * list string) =>
     let '(dirpath, _, filenames) := x in
     fold_left (fun files fname => scan_entry fs min_size files dirpath fname)
               filenames files).

Lemma collect_unfold root follow :
  collect_video_files os_walk fs root min_size follow
  = fold_left dir_step (os_walk root follow) [].
Proof. reflexivity. Qed.

(** One step either leaves the mapping or assigns the record of the path. *)
Lemma scan_entry_cases files d fname :
  scan_entry fs min_size files d fname = files \/
  (video_file fs min_size (path_join d fname) /\
   scan_entry fs min_size files d fname
   = dict_set path_eqb files (path_join d fname)
              {| path := path_join d fname;
                 size := size_of fs (path_join d fname) |}).
Proof.
  unfold scan_entry, stat, is_file, size_of, video_file.
  remember (mem_string (lower (suffix (path_join d fname))) VIDEO_EXTS) as ext
    eqn:Hext.
  destruct (fs (path_join d fname)) as [e | n] eqn:Hfs; [now left |].
  destruct n as [content mtime oe | |]; simpl; try now left.
  destruct (Z.ltb_spec (Z.of_nat (length content)) min_size); [now left |].
  destruct ext; simpl; [| now left]. right. split; [| reflexivity].
  split; [reflexivity |]. now exists content, mtime, oe.
Qed.

Lemma scan_entry_takes files d fname :
  video_file fs min_size (path_join d fname) ->
  scan_entry fs min_size files d fname
  = dict_set path_eqb files (path_join d fname)
             {| path := path_join d fname;
                size := size_of fs (path_join d fname) |}.
Proof.
  intros [Hext [content [mtime [oe [Hfs Hmin]]]]].
  unfold scan_entry, stat, is_file, size_of. rewrite Hfs, Hext. simpl.
  destruct (Z.ltb_spec (Z.of_nat (length content)) min_size); [lia | reflexivity].
Qed.

Lemma scan_entry_inv walk files d dirnames filenames fname :
  In (d, dirnames, filenames) walk -> In fname filenames ->
  scan_inv fs min_size walk files -> scan_inv fs min_size walk (scan_entry fs min_size files d fname).
Proof.
  intros Hd Hf [Hnd Hall].
  destruct (scan_entry_cases files d fname) as [-> | [Hv ->]]; [now split |].
  split.
  - now apply (dict_set_keys_NoDup path_eqb path_eqb_eq).
  - intros p fi Hin. apply (dict_set_in path_eqb path_eqb_eq) in Hin.
    destruct Hin as [[-> ->] | Hin]; [| now apply Hall].
    repeat split; try apply Hv. now exists d, dirnames, filenames, fname.
Qed.

Lemma scan_entry_keeps files d fname p :
  dict_get path_eqb files p = Some {| path := p; size := size_of fs p |} ->
  dict_get path_eqb (scan_entry fs min_size files d fname) p
  = Some {| path := p; size := size_of fs p |}.
Proof.
  intros Hget.
  destruct (scan_entry_cases files d fname) as [-> | [_ ->]]; [assumption |].
  destruct (list_eq_dec string_dec p (path_join d fname)) as [-> | Hne].
  - apply (dict_get_set_same path_eqb path_eqb_eq).
  - now rewrite (dict_get_set_other path_eqb path_eqb_eq).
Qed.

Lemma entries_keep filenames files d p :
  dict_get path_eqb files p = Some {| path := p; size := size_of fs p |} ->
  dict_get path_eqb
    (fold_left (fun files fname => scan_entry fs min_size files d fname)
               filenames files) p
  = Some {| path := p; size := size_of fs p |}.
Proof.
  revert files. induction filenames as [| f filenames IH]; intros files Hget; simpl;
    [assumption |].
  apply IH. now apply scan_entry_keeps.
Qed.

Lemma dirs_keep walk files p :
  dict_get path_eqb files p = Some {| path := p; size := size_of fs p |} ->
  dict_get path_eqb (fold_left dir_step walk files) p
  = Some {| path := p; size := size_of fs p |}.
Proof.
  revert files. induction walk as [| [[d dn] fns] walk IH]; intros files Hget;
    simpl; [assumption |].
  apply IH. now apply entries_keep.
Qed.

Lemma collect_inv root follow :
  scan_inv fs min_size (os_walk root follow)
           (collect_video_files os_walk fs root min_size follow).
Proof.
  rewrite collect_unfold.
  assert (Hgen : forall (todo : list (Path * list string * list string)) files,
             (forall x, In x todo -> In x (os_walk root follow)) ->
             scan_inv fs min_size (os_walk root follow) files ->
             scan_inv fs min_size (os_walk root follow) (fold_left dir_step todo files)).
  { induction todo as [| [[d dn] fns] todo IH]; intros files Hsub Hinv; simpl;
      [assumption |].
    apply IH; [intros x Hx; apply Hsub; now right |].
    assert (Hd : In (d, dn, fns) (os_walk root follow)) by (apply Hsub; now left).
    clear IH Hsub.
    assert (Hfn : forall (todo' : list string) files',
               (forall f, In f todo' -> In f fns) ->
               scan_inv fs min_size (os_walk root follow) files' ->
               scan_inv fs min_size (os_walk root follow)
                 (fold_left (fun files fname => scan_entry fs min_size files d fname)
                            todo' files')).
    { induction todo' as [| f todo' IH']; intros files' Hsub' Hinv'; simpl;
        [assumption |].
      apply IH'; [intros g Hg; apply Hsub'; now right |].
      apply scan_entry_inv with (dirnames := dn) (filenames := fns);
        [assumption | apply Hsub'; now left | assumption]. }
    apply Hfn; auto. }
  apply Hgen; [auto |]. split; [constructor | intros ? ? []].
Qed.

Lemma collect_complete root follow p :
  walked (os_walk root follow) p -> video_file fs min_size p ->
  dict_get path_eqb (collect_video_files os_walk fs root min_size follow) p
  = Some {| path := p; size := size_of fs p |}.
Proof.
  intros [d [dn [fns [fname [Hd [Hf ->]]]]]] Hv. rewrite collect_unfold.
  apply in_split in Hd. destruct Hd as [w1 [w2 ->]].
  rewrite fold_left_app. simpl. apply dirs_keep.
  apply in_split in Hf. destruct Hf as [f1 [f2 ->]].
  rewrite fold_left_app. simpl. apply entries_keep.
  rewrite (scan_entry_takes _ _ _ Hv).
  apply (dict_get_set_same path_eqb path_eqb_eq).
Qed.

(** X10. The scan keeps exactly the walked files that pass its filters: a
    path is a key of the mapping if and only if the walk lists it as a file
    of a directory, it resolves to a regular file of at least the minimum
    size, and its extension, in lower case, is a video extension. *)
Theorem scan_keeps_exactly_the_videos root follow p :
  In p (keys (collect_video_files os_walk fs root min_size follow)) <->
  walked (os_walk root follow) p /\ video_file fs min_size p.
Proof.
  split.
  - intros Hin. unfold keys in Hin. apply in_map_iff in Hin.
    destruct Hin as [[p' fi] [Hp Hin]]. simpl in Hp. subst p'.
    destruct (collect_inv root follow) as [_ Hall].
    destruct (Hall p fi Hin) as [Hw [Hv _]]. now split.
  - intros [Hw Hv]. pose proof (collect_complete root follow p Hw Hv) as Hget.
    apply (dict_get_in path_eqb path_eqb_eq) in Hget.
    now apply (in_map fst) in Hget.
Qed.

(** X11. The mapping of a scan holds every path once, and under each path
    the record of that path with the size that [stat] reports, also when the
    walk lists the path more than once. *)
Theorem scan_records_each_path_once root follow :
  NoDup (keys (collect_video_files os_walk fs root min_size follow)) /\
  forall p fi,
    In (p, fi) (collect_video_files os_walk fs root min_size follow) <->
    In p (keys (collect_video_files os_walk fs root min_size follow)) /\
    fi = {| path := p; size := size_of fs p |}.
Proof.
  destruct (collect_inv root follow) as [Hnd Hall]. split; [assumption |].
  intros p fi. split.
  - intros Hin. split; [now apply (in_map fst) in Hin |]. now apply Hall.
  - intros [Hin ->]. unfold keys in Hin. apply in_map_iff in Hin.
    destruct Hin as [[p' fi] [Hp Hin]]. simpl in Hp. subst p'.
    destruct (Hall p fi Hin) as [_ [_ ->]]. assumption.
Qed.

End ScanMore.

(** X12. Raising the minimum size can only remove files from a scan: every
    path kept under the larger minimum is kept under the smaller one. *)
Theorem scan_shrinks_with_min_size os_walk fs root follow min1 min2 p :
  min1 <= min2 ->
  In p (keys (collect_video_files os_walk fs root min2 follow)) ->
  In p (keys (collect_video_files os_walk fs root min1 follow)).
Proof.
  intros Hle Hin. unfold keys in Hin. apply in_map_iff in Hin.
  destruct Hin as [[p' fi] [Hp Hin]]. simpl in Hp. subst p'.
  destruct (collect_inv os_walk fs min2 root follow) as [_ Hall].
  destruct (Hall p fi Hin) as [Hw [[Hext [content [mtime [oe [Hfs Hmin]]]]] _]].
  assert (Hv : video_file fs min1 p).
  { split; [assumption |]. exists content, mtime, oe. split; [assumption | lia]. }
  pose proof (collect_complete os_walk fs min1 root follow p Hw Hv) as Hget.
  apply (dict_get_in path_eqb path_eqb_eq) in Hget.
  now apply (in_map fst) in Hget.
Qed.

Lemma scan_shrinks_with_min_size_witness :
  In movie (keys (collect_video_files (flat_walk toy_fs) toy_fs src_dir 2 false)).
Proof.
  apply (scan_shrinks_with_min_size (flat_walk toy_fs) toy_fs src_dir false 2 5 movie).
  - lia.
  - simpl. tauto.
Defined.

(* ------------------------------------------------------------------ *)
(** ** The engine: failure, and the order in which workers finish *)

Lemma last_writer_in ws d fi :
  last_writer ws d = Some fi -> In (d, fi) ws.
Proof.
  unfold last_writer.
  destruct (find _ (rev ws)) as [[k v] |] eqn:E; simpl; [| discriminate].
  intros H. injection H as <-. apply find_some in E. destruct E as [Hin Hk].
  simpl in Hk. apply String.eqb_eq in Hk. subst k. now apply in_rev.
Qed.

Lemma last_writer_none ws d :
  last_writer ws d = None -> ~ In d (map fst ws).
Proof.
  intros Hnone Hin. destruct (last_writer_some ws d Hin) as [fi Hfi]. congruence.
Qed.

Section EngineMore.

Variable hashlib : string -> option (list byte -> string).
Variables (fs : FileSystem) (algo method : string) (chunk_size : Z).


Variables ac1 ac2 : list FileInfo -> list FileInfo.
Hypothesis ac1_perm : forall l, Permutation (ac1 l) l.
Hypothesis ac2_perm : forall l, Permutation (ac2 l) l.

(** X14. The order in which the workers finish does not change what the
    engine finds: two runs of a batch under two completion orders hash the
    same files, print the same diagnostics up to their order, and return
    mappings with the same digests; when no two files of the batch share a
    fingerprint, the two mappings hold the same record under every
    digest. *)
Theorem completion_order_is_immaterial files workers cache r1 r2 :
  hash_map hashlib ac1 fs files algo method chunk_size workers cache = Ok r1 ->
  hash_map hashlib ac2 fs files algo method chunk_size workers cache = Ok r2 ->
  hm_hashed r1 = hm_hashed r2 /\
  (forall line, In line (hm_stderr r1) <-> In line (hm_stderr r2)) /\
  (forall d, In d (keys (hm_out r1)) <-> In d (keys (hm_out r2))) /\
  ((forall fi fj d,
       In fi (values files) -> In fj (values files) ->
       fingerprint hashlib fs algo method chunk_size cache fi = Some d ->
       fingerprint hashlib fs algo method chunk_size cache fj = Some d ->
       fi = fj) ->
   forall d, dict_get String.eqb (hm_out r1) d = dict_get String.eqb (hm_out r2) d).
Proof.
  intros Hrun1 Hrun2.
  destruct (hash_map_spec hashlib ac1 ac1_perm fs algo method chunk_size
              files workers cache r1 Hrun1) as [Hout1 [Hh1 Herr1]].
  destruct (hash_map_spec hashlib ac2 ac2_perm fs algo method chunk_size
              files workers cache r2 Hrun2) as [Hout2 [Hh2 Herr2]].
  assert (Hkeys : forall ac (Hperm : forall l, Permutation (ac l) l) d,
             In d (keys (assign_all
                           (all_writes hashlib ac fs algo method chunk_size
                                       cache files) [])) <->
             exists fi, In fi (values files) /\
                        fingerprint hashlib fs algo method chunk_size cache fi
                        = Some d).
  { intros ac Hperm d. rewrite assign_all_keys. split.
    - intros [[] | Hin]. apply in_map_iff in Hin.
      destruct Hin as [[d' fi] [Hd Hin]]. simpl in Hd. subst d'.
      apply (in_all_writes hashlib ac Hperm) in Hin. now exists fi.
    - intros [fi Hfi]. right. apply in_map_iff. exists (d, fi).
      split; [reflexivity |]. now apply (in_all_writes hashlib ac Hperm). }
  split; [congruence |]. split; [| split].
  - intros line. rewrite Herr1, Herr2, !in_hash_errors.
    split; intros [fi [e [Hin H]]]; exists fi, e; split; try assumption.
    + apply (as_completed_in ac2 ac2_perm). rewrite Hh2, <- Hh1.
      now apply (as_completed_in ac1 ac1_perm).
    + apply (as_completed_in ac1 ac1_perm). rewrite Hh1, <- Hh2.
      now apply (as_completed_in ac2 ac2_perm).
  - intros d. rewrite Hout1, Hout2, (Hkeys ac1 ac1_perm), (Hkeys ac2 ac2_perm).
    reflexivity.
  - intros Huniq d. rewrite Hout1, Hout2, !assign_all_get. simpl.
    destruct (last_writer (all_writes hashlib ac1 fs algo method chunk_size
                                      cache files) d) as [f1 |] eqn:E1;
      destruct (last_writer (all_writes hashlib ac2 fs algo method chunk_size
                                        cache files) d) as [f2 |] eqn:E2;
      try reflexivity.
    + apply last_writer_in in E1. apply last_writer_in in E2.
      apply (in_all_writes hashlib ac1 ac1_perm) in E1.
      apply (in_all_writes hashlib ac2 ac2_perm) in E2.
      f_equal. apply (Huniq f1 f2 d); tauto.
    + exfalso. apply last_writer_in in E1. apply last_writer_none in E2.
      apply E2. apply in_map_iff. exists (d, f1). split; [reflexivity |].
      apply (in_all_writes hashlib ac2 ac2_perm).
      now apply (in_all_writes hashlib ac1 ac1_perm) in E1.
    + exfalso. apply last_writer_in in E2. apply last_writer_none in E1.
      apply E1. apply in_map_iff. exists (d, f2). split; [reflexivity |].
      apply (in_all_writes hashlib ac1 ac1_perm).
      now apply (in_all_writes hashlib ac2 ac2_perm) in E2.
Qed.

End EngineMore.

Lemma completion_order_is_immaterial_witness :
  In "#FIRST012LAST789"%string (keys (hm_out twins_run)) <->
  In "#FIRST012LAST789"%string (keys [("#FIRST012LAST789"%string, twin_a)]).
Proof.
  apply (completion_order_is_immaterial toy_hashlib twins_fs "blake2b" "partial" 3
           (fun l => l) (@rev FileInfo)
           (fun l => Permutation_refl l)
           (fun l => Permutation_sym (Permutation_rev l))
           twins 2 None twins_run
           {| hm_out := [("#FIRST012LAST789"%string, twin_a)];
              hm_cache := None; hm_stderr := []; hm_hashed := [twin_a; twin_b] |}
           eq_refl eq_refl).
Defined.

(* ------------------------------------------------------------------ *)
(** ** The engine and its cache across runs *)

Module TableFacts.
Import HashCache.

Lemma fold_snoc rows r tbl :
  fold_left replace_into (rows ++ [r]) tbl
  = replace_into (fold_left replace_into rows tbl) r.
Proof. now rewrite fold_left_app. Qed.

(** Stores under other paths do not change a lookup. *)
Lemma find_fold_other rows tbl q m s me a k :
  (forall r, In r rows -> r_path r <> path_str q) ->
  find (selects q m s me a k) (fold_left replace_into rows tbl)
  = find (selects q m s me a k) tbl.
Proof.
  revert tbl. induction rows as [| r rows IH]; intros tbl Hall; simpl;
    [reflexivity |].
  rewrite IH by (intros x Hx; apply Hall; now right).
  apply CacheMore.find_replace_other. intros Heq.
  apply (Hall r (or_introl eq_refl)). now symmetry.
Qed.

(** When all the stores under a path write the same row, a lookup under
    the path sees that row and no other. *)
Lemma find_fold_same rows tbl row0 q m s me a k :
  In row0 rows ->
  (forall r, In r rows -> r_path r = r_path row0 -> r = row0) ->
  r_path row0 = path_str q ->
  find (selects q m s me a k) (fold_left replace_into rows tbl)
  = if selects q m s me a k row0 then Some row0 else None.
Proof.
  intros Hin Hsame Hpath. induction rows as [| x rows IH] using rev_ind;
    [destruct Hin |].
  rewrite fold_snoc.
  destruct (string_dec (r_path x) (r_path row0)) as [Heq | Hne].
  - assert (Hx : x = row0) by (apply Hsame; [apply in_or_app; right; now left | assumption]).
    subst x. now apply CacheFacts.get_after_replace.
  - rewrite CacheMore.find_replace_other by congruence.
    apply IH.
    + apply in_app_or in Hin. destruct Hin as [Hin | [Hx | []]]; [assumption |].
      subst x. contradiction.
    + intros r Hr. apply Hsame. apply in_or_app. now left.
Qed.

(** A lookup finds a row of the table or a row that was stored. *)
Lemma find_fold_sound rows tbl q m s me a k r :
  find (selects q m s me a k) (fold_left replace_into rows tbl) = Some r ->
  In r rows \/ find (selects q m s me a k) tbl = Some r.
Proof.
  induction rows as [| x rows IH] using rev_ind; [now right |].
  rewrite fold_snoc.
  destruct (string_dec (path_str q) (r_path x)) as [Heq | Hne].
  - rewrite CacheFacts.get_after_replace by now symmetry.
    destruct (selects q m s me a k x); [| discriminate].
    intros H. injection H as <-. left. apply in_or_app. right. now left.
  - rewrite CacheMore.find_replace_other by assumption.
    intros H. destruct (IH H) as [Hin | Hold]; [left | now right].
    apply in_or_app. now left.
Qed.

End TableFacts.

Section CacheAcrossRuns.

Variable hashlib : string -> option (list byte -> string).
Variable as_completed : list FileInfo -> list FileInfo.
Hypothesis as_completed_perm : forall l, Permutation (as_completed l) l.
Variables (fs : FileSystem) (algo method : string) (chunk_size : Z).

Local Abbreviation rows_of :=
  (stored_rows hashlib fs algo method chunk_size).

Lemma complete_fold_cache l out c err :
  snd (fst (fold_left (complete_step hashlib fs algo method chunk_size) l
                      (out, Some c, err)))
  = Some {| HashCache.table :=
              fold_left HashCache.replace_into
                        (rows_of (HashCache.write_fails c) l) (HashCache.table c);
            HashCache.write_fails := HashCache.write_fails c |}.
Proof.
  revert out c err. induction l as [| fi l IH]; intros out c err.
  - destruct c. reflexivity.
  - cbn [fold_left]. unfold stored_rows. cbn [flat_map].
    fold (stored_rows hashlib fs algo method chunk_size (HashCache.write_fails c) l).
    rewrite fold_left_app. unfold complete_step at 2, row_for.
    destruct (hash_file hashlib fs (path fi) algo method chunk_size) as [d | e].
    + destruct (stat fs (path fi)) as [st | e]; cbn [bind].
      * unfold HashCache.set.
        destruct (HashCache.write_fails c _) eqn:Hw.
        -- apply IH.
        -- rewrite IH. reflexivity.
      * apply IH.
    + apply IH.
Qed.

Lemma hash_map_cache files workers c r :
  hash_map hashlib as_completed fs files algo method chunk_size workers (Some c)
  = Ok r ->
  hm_cache r
  = Some {| HashCache.table :=
              fold_left HashCache.replace_into
                        (rows_of (HashCache.write_fails c)
                                 (as_completed (hm_hashed r)))
                        (HashCache.table c);
            HashCache.write_fails := HashCache.write_fails c |}.
Proof.
  unfold hash_map. rewrite lookup_fold. cbn [app].
  destruct (filter _ (values files)) as [| fi0 to_hash].
  - intros H. injection H as <-. cbn [hm_cache hm_hashed].
    rewrite (as_completed_nil as_completed as_completed_perm). destruct c. reflexivity.
  - destruct (workers <=? 0); [discriminate |].
    pose proof (complete_fold_cache (as_completed (fi0 :: to_hash))
                  (assign_all (cache_writes fs algo method chunk_size (Some c)
                                            (values files)) [])
                  c []) as Hc.
    destruct (fold_left _ (as_completed (fi0 :: to_hash)) _) as [[out c'] err].
    simpl in Hc. intros H. injection H as <-. exact Hc.
Qed.

Lemma in_stored_rows refuses l r :
  In r (rows_of refuses l) <->
  exists fi d, In fi l /\
               hash_file hashlib fs (path fi) algo method chunk_size = Ok d /\
               row_for fs algo method chunk_size fi d = Some r /\
               refuses r = false.
Proof.
  unfold stored_rows. rewrite in_flat_map. split.
  - intros [fi [Hfi Hin]].
    destruct (hash_file hashlib fs (path fi) algo method chunk_size) as [d | e] eqn:Hh;
      [| destruct Hin].
    destruct (row_for fs algo method chunk_size fi d) as [r0 |] eqn:Hr; [| destruct Hin].
    destruct (refuses r0) eqn:Hw; [destruct Hin |].
    destruct Hin as [<- | []]. now exists fi, d.
  - intros [fi [d [Hfi [Hh [Hr Hw]]]]]. exists fi. rewrite Hh, Hr, Hw.
    split; [assumption | now left].
Qed.

(** X15. The cache that a run leaves holds only what was there and what the
    run computed: a lookup in it that finds a digest found it in the cache
    before the run, or the digest is the one [hash_file] returned in this run
    for a file of that path, looked up under the tuple of that file. *)
Theorem cache_holds_only_computed_digests files workers c r c' :
  hash_map hashlib as_completed fs files algo method chunk_size workers (Some c)
  = Ok r ->
  hm_cache r = Some c' ->
  forall q m s me a k d,
    HashCache.get c' q m s me a k = Some d ->
    HashCache.get c q m s me a k = Some d \/
    exists fi st,
      In fi (hm_hashed r) /\
      hash_file hashlib fs (path fi) algo method chunk_size = Ok d /\
      stat fs (path fi) = Ok st /\
      path_str q = path_str (path fi) /\
      (m, s, me, a, k) = (st_mtime st, st_size st, method, algo, chunk_size).
Proof.
  intros Hrun Hc' q m s me a k d. rewrite (hash_map_cache files workers c r Hrun) in Hc'.
  injection Hc' as <-. unfold HashCache.get. cbn [HashCache.table].
  destruct (find _ (fold_left _ _ _)) as [row |] eqn:Hfind; [| discriminate].
  intros H. injection H as <-.
  pose proof (find_some _ _ Hfind) as [_ Hsel].
  apply TableFacts.find_fold_sound in Hfind. destruct Hfind as [Hin | Hold].
  - right. apply in_stored_rows in Hin. destruct Hin as [fi [d [Hfi [Hh [Hr _]]]]].
    apply (proj1 (as_completed_in as_completed as_completed_perm _ _)) in Hfi.
    unfold row_for in Hr.
    destruct (stat fs (path fi)) as [st | e] eqn:Hst; [| discriminate].
    injection Hr as <-. exists fi, st. cbn [HashCache.r_hash].
    apply CacheFacts.selects_iff in Hsel. unfold HashCache.key_of in Hsel.
    cbn in Hsel. injection Hsel as Hp <- <- <- <- <-. auto 6.
  - left. now rewrite Hold.
Qed.

End CacheAcrossRuns.

Section SecondRun.

Variable hashlib : string -> option (list byte -> string).
Variable as_completed : list FileInfo -> list FileInfo.
Hypothesis as_completed_perm : forall l, Permutation (as_completed l) l.
Variables (fs : FileSystem) (algo method : string) (chunk_size : Z).

Local Abbreviation hash_of_path :=
  (fun p => hash_file hashlib fs p algo method chunk_size).

Lemma hash_map_keys files workers cache r d :
  hash_map hashlib as_completed fs files algo method chunk_size workers cache
  = Ok r ->
  In d (keys (hm_out r)) <->
  exists fi, In fi (values files) /\
             fingerprint hashlib fs algo method chunk_size cache fi = Some d.
Proof.
  intros Hrun.
  destruct (hash_map_spec hashlib as_completed as_completed_perm
              fs algo method chunk_size files workers cache r Hrun) as [Hout _].
  rewrite Hout, assign_all_keys. split.
  - intros [[] | Hin]. apply in_map_iff in Hin.
    destruct Hin as [[d' fi] [Hd Hin]]. simpl in Hd. subst d'.
    apply (in_all_writes hashlib as_completed as_completed_perm) in Hin.
    now exists fi.
  - intros [fi Hfi]. right. apply in_map_iff. exists (d, fi).
    split; [reflexivity |].
    now apply (in_all_writes hashlib as_completed as_completed_perm).
Qed.

Lemma hash_map_idle files workers cache :
  filter (needs_hash fs algo method chunk_size cache) (values files) = [] ->
  exists r,
    hash_map hashlib as_completed fs files algo method chunk_size workers cache
    = Ok r.
Proof.
  intros Hnone. unfold hash_map. rewrite lookup_fold. cbn [app].
  rewrite Hnone. eexists. reflexivity.
Qed.

Lemma filter_filter_and {A} (f g : A -> bool) l :
  filter g (filter f l) = filter (fun x => f x && g x) l.
Proof.
  induction l as [| x l IH]; simpl; [reflexivity |].
  destruct (f x); simpl; [destruct (g x); now rewrite IH | exact IH].
Qed.

Variable files : dict Path FileInfo.
Variable c : HashCache.t.

(** The writes succeed, the paths of the batch have distinct names, and no
    digest is the empty string. *)
Hypothesis writes_succeed : forall row, HashCache.write_fails c row = false.
Hypothesis names_distinct :
  forall fi fj, In fi (values files) -> In fj (values files) ->
                path_str (path fi) = path_str (path fj) -> path fi = path fj.
Hypothesis digests_not_empty :
  forall fi d, In fi (values files) -> hash_of_path (path fi) = Ok d ->
               d <> EmptyString.

Local Abbreviation to_hash :=
  (filter (needs_hash fs algo method chunk_size (Some c)) (values files)).

Local Abbreviation rows :=
  (stored_rows hashlib fs algo method chunk_size (HashCache.write_fails c)
               (as_completed to_hash)).

Local Abbreviation cache' :=
  {| HashCache.table :=
       fold_left HashCache.replace_into rows (HashCache.table c);
     HashCache.write_fails := HashCache.write_fails c |}.

(** A row stored under the name of a file of the batch was stored for a
    file of the same path. *)
Lemma row_of_same_path fi row :
  In fi (values files) -> In row rows ->
  HashCache.r_path row = path_str (path fi) ->
  exists fj d,
    path fj = path fi /\
    needs_hash fs algo method chunk_size (Some c) fj = true /\
    hash_of_path (path fj) = Ok d /\
    row_for fs algo method chunk_size fj d = Some row.
Proof.
  intros Hfi Hrow Hpath.
  apply (in_stored_rows hashlib fs algo method chunk_size) in Hrow.
  destruct Hrow as [fj [d [Hfj [Hh [Hr _]]]]].
  apply (proj1 (as_completed_in as_completed as_completed_perm _ _)) in Hfj.
  apply filter_In in Hfj. destruct Hfj as [Hfj Hn].
  exists fj, d. repeat split; try assumption.
  apply names_distinct; try assumption.
  unfold row_for in Hr. destruct (stat fs (path fj)); [| discriminate].
  injection Hr as <-. simpl in Hpath. congruence.
Qed.

(** After the run, the cache supplies for every file of the batch the
    digest under which the run filed it. *)
Lemma cached_after_run fi :
  In fi (values files) ->
  cached_digest fs algo method chunk_size (Some cache') fi
  = fingerprint hashlib fs algo method chunk_size (Some c) fi.
Proof.
  intros Hfi. unfold fingerprint.
  destruct (needs_hash fs algo method chunk_size (Some c) fi) eqn:Hn.
  - destruct (needs_hash_true fs algo method chunk_size (Some c) fi Hn)
      as [Hc [st Hst]].
    rewrite Hc.
    destruct (hash_file hashlib fs (path fi) algo method chunk_size) as [d | e] eqn:Hh.
    + (* hashed and stored *)
      set (row := {| HashCache.r_path := path_str (path fi);
                     HashCache.r_mtime := st_mtime st;
                     HashCache.r_size := st_size st;
                     HashCache.r_method := method; HashCache.r_algo := algo;
                     HashCache.r_chunk_size := chunk_size;
                     HashCache.r_hash := d |}).
      assert (Hrow : row_for fs algo method chunk_size fi d = Some row).
      { unfold row_for. now rewrite Hst. }
      assert (Hin : In row rows).
      { apply (in_stored_rows hashlib fs algo method chunk_size).
        exists fi, d. repeat split; try assumption; [| apply writes_succeed].
        apply (as_completed_in as_completed as_completed_perm).
        apply filter_In. now split. }
      unfold cached_digest. rewrite Hst. unfold HashCache.get. cbn [HashCache.table].
      rewrite (TableFacts.find_fold_same rows (HashCache.table c) row (path fi)).
      * unfold HashCache.selects. subst row. cbn.
        rewrite !String.eqb_refl, !Z.eqb_refl. cbn.
        now rewrite (truthy_nonempty d (digests_not_empty fi d Hfi Hh)).
      * exact Hin.
      * intros r Hr Hp.
        destruct (row_of_same_path fi r Hfi Hr Hp) as [fj [d' [Hpath [_ [Hh' Hr']]]]].
        unfold row_for in Hr'. rewrite Hpath, Hst in Hr'. rewrite Hpath, Hh in Hh'.
        injection Hh' as <-. now injection Hr' as <-.
      * reflexivity.
    + (* hashing raised: nothing was stored under this name *)
      unfold cached_digest in *. rewrite Hst in *. unfold HashCache.get in *.
      cbn [HashCache.table].
      rewrite TableFacts.find_fold_other; [exact Hc |].
      intros r Hr Hp.
      destruct (row_of_same_path fi r Hfi Hr Hp) as [fj [d' [Hpath [_ [Hh' _]]]]].
      rewrite Hpath, Hh in Hh'. discriminate.
  - (* supplied by the cache before the run, or not stat'ed *)
    assert (Hsame : cached_digest fs algo method chunk_size (Some cache') fi
                    = cached_digest fs algo method chunk_size (Some c) fi).
    { unfold cached_digest. destruct (stat fs (path fi)) as [st | e]; [| reflexivity].
      unfold HashCache.get. cbn [HashCache.table].
      rewrite TableFacts.find_fold_other; [reflexivity |].
      intros r Hr Hp.
      destruct (row_of_same_path fi r Hfi Hr Hp) as [fj [d' [Hpath [Hn' _]]]].
      rewrite (needs_hash_path fs algo method chunk_size (Some c) fj fi Hpath) in Hn'.
      congruence. }
    rewrite Hsame.
    now destruct (cached_digest fs algo method chunk_size (Some c) fi).
Qed.

Lemma needs_after_run fi :
  In fi (values files) ->
  needs_hash fs algo method chunk_size (Some cache') fi
  = needs_hash fs algo method chunk_size (Some c) fi
    && hash_raises hashlib fs algo method chunk_size fi.
Proof.
  intros Hfi. unfold needs_hash at 1. rewrite (cached_after_run fi Hfi).
  unfold fingerprint, hash_raises.
  destruct (needs_hash fs algo method chunk_size (Some c) fi) eqn:Hn.
  - destruct (needs_hash_true fs algo method chunk_size (Some c) fi Hn)
      as [Hc [st Hst]].
    rewrite Hc, Hst.
    now destruct (hash_file hashlib fs (path fi) algo method chunk_size).
  - unfold needs_hash in Hn. destruct (stat fs (path fi)); [| reflexivity].
    destruct (cached_digest fs algo method chunk_size (Some c) fi);
      [reflexivity | discriminate].
Qed.

Lemma fingerprint_after_run fi :
  In fi (values files) ->
  fingerprint hashlib fs algo method chunk_size (Some cache') fi
  = fingerprint hashlib fs algo method chunk_size (Some c) fi.
Proof.
  intros Hfi. unfold fingerprint at 1.
  rewrite (cached_after_run fi Hfi), (needs_after_run fi Hfi).
  destruct (fingerprint hashlib fs algo method chunk_size (Some c) fi) eqn:Hf;
    [reflexivity |].
  unfold hash_raises.
  destruct (needs_hash fs algo method chunk_size (Some c) fi); [| reflexivity].
  now destruct (hash_file hashlib fs (path fi) algo method chunk_size).
Qed.

(** X16. A second run over the same batch, with the cache that the first
    run left, hashes only the files whose hashing raised in the first run:
    every file that was hashed then is now supplied by the cache.  The
    second mapping has the digests of the first and the diagnostics are the
    same.  (The writes to the cache succeed, the paths of the batch have
    distinct names and no digest is empty.) *)
Theorem second_run_hashes_only_failures workers r1 :
  hash_map hashlib as_completed fs files algo method chunk_size workers (Some c)
  = Ok r1 ->
  exists r2,
    hash_map hashlib as_completed fs files algo method chunk_size workers
             (hm_cache r1) = Ok r2 /\
    hm_hashed r2
    = filter (hash_raises hashlib fs algo method chunk_size) (hm_hashed r1) /\
    (forall d, In d (keys (hm_out r2)) <-> In d (keys (hm_out r1))) /\
    (forall line, In line (hm_stderr r2) <-> In line (hm_stderr r1)).
Proof.
  intros Hrun1.
  destruct (hash_map_spec hashlib as_completed as_completed_perm
              fs algo method chunk_size files workers (Some c) r1 Hrun1)
    as [_ [Hh1 Herr1]].
  pose proof (hash_map_cache hashlib as_completed as_completed_perm
                fs algo method chunk_size files workers c r1 Hrun1) as Hcache.
  rewrite Hh1 in Hcache. rewrite Hcache.
  assert (Hto : filter (needs_hash fs algo method chunk_size (Some cache'))
                       (values files)
                = filter (hash_raises hashlib fs algo method chunk_size) to_hash).
  { rewrite filter_filter_and. apply filter_ext_in. intros fi Hfi.
    now apply needs_after_run. }
  assert (Hruns : exists r2,
             hash_map hashlib as_completed fs files algo method chunk_size
                      workers (Some cache') = Ok r2).
  { destruct (Z.leb_spec workers 0) as [Hw | Hw].
    - apply hash_map_idle. rewrite Hto.
      replace to_hash with (@nil FileInfo); [reflexivity |].
      revert Hrun1. unfold hash_map. rewrite lookup_fold. cbn [app].
      destruct to_hash; [reflexivity |].
      destruct (Z.leb_spec workers 0); [discriminate | lia].
    - now apply hash_map_runs. }
  destruct Hruns as [r2 Hrun2]. exists r2. split; [exact Hrun2 |].
  destruct (hash_map_spec hashlib as_completed as_completed_perm
              fs algo method chunk_size files workers (Some cache') r2 Hrun2)
    as [_ [Hh2 Herr2]].
  split; [| split].
  - now rewrite Hh2, Hh1, Hto.
  - intros d. rewrite (hash_map_keys files workers (Some cache') r2 d Hrun2).
    rewrite (hash_map_keys files workers (Some c) r1 d Hrun1).
    split; intros [fi [Hfi Hf]]; exists fi; split; try assumption.
    + now rewrite <- (fingerprint_after_run fi Hfi).
    + now rewrite (fingerprint_after_run fi Hfi).
  - intros line. rewrite Herr1, Herr2, !in_hash_errors.
    split; intros [fi [e [Hfi [Hh Hl]]]]; exists fi, e; repeat split; try assumption.
    + apply (as_completed_in as_completed as_completed_perm).
      apply (proj1 (as_completed_in as_completed as_completed_perm _ _)) in Hfi.
      rewrite Hh2, Hto in Hfi. apply filter_In in Hfi. rewrite Hh1. tauto.
    + apply (as_completed_in as_completed as_completed_perm).
      apply (proj1 (as_completed_in as_completed as_completed_perm _ _)) in Hfi.
      rewrite Hh2, Hto. apply filter_In. rewrite Hh1 in Hfi.
      split; [assumption |]. unfold hash_raises. now rewrite Hh.
Qed.

End SecondRun.

Lemma cache_holds_only_computed_digests_witness :
  HashCache.get empty_cache movie 100 10 "partial" "blake2b" 3
  = Some "#FIRST012LAST789"%string \/
  exists fi st,
    In fi (hm_hashed toy_src_run) /\
    hash_file toy_hashlib toy_fs (path fi) "blake2b" "partial" 3
    = Ok "#FIRST012LAST789"%string /\
    stat toy_fs (path fi) = Ok st /\
    path_str movie = path_str (path fi) /\
    (100, 10, "partial"%string, "blake2b"%string, 3)
    = (st_mtime st, st_size st, "partial"%string, "blake2b"%string, 3).
Proof.
  apply (cache_holds_only_computed_digests toy_hashlib (fun l => l)
           (fun l => Permutation_refl l) toy_fs "blake2b" "partial" 3
           toy_batch 2 empty_cache toy_src_run
           {| HashCache.table := [movie_row];
              HashCache.write_fails := fun _ => false |}
           eq_refl eq_refl movie 100 10 "partial" "blake2b" 3
           "#FIRST012LAST789"%string eq_refl).
Defined.

Lemma second_run_hashes_only_failures_witness :
  exists r2,
    hash_map toy_hashlib (fun l => l) toy_fs toy_batch "blake2b" "partial" 3 2
             (hm_cache toy_src_run) = Ok r2 /\
    hm_hashed r2 = [locked_info].
Proof.
  destruct (second_run_hashes_only_failures toy_hashlib (fun l => l)
              (fun l => Permutation_refl l) toy_fs "blake2b" "partial" 3
              toy_batch empty_cache) with (workers := 2) (r1 := toy_src_run)
    as [r2 [Hrun [Hhashed _]]].
  - reflexivity.
  - intros fi fj [<- | [<- | []]] [<- | [<- | []]] H;
      try reflexivity; vm_compute in H; discriminate.
  - intros fi d [<- | [<- | []]] H; vm_compute in H;
      [injection H as <-; discriminate | discriminate].
  - reflexivity.
  - exists r2. split; [exact Hrun | exact Hhashed].
Defined.

(* ------------------------------------------------------------------ *)
(** ** Reconciliation: when nothing is missing, and what it looks at *)

(** X17. Nothing is missing exactly when every digest of the source mapping
    is a key of the destination mapping. *)
Theorem reconcile_empty_iff S D :
  reconcile S D = [] <-> (forall h, In h (keys S) -> In h (keys D)).
Proof.
  split; [| apply reconcile_nil].
  rewrite reconcile_filter. intros Hnil h Hin.
  unfold keys in Hin. apply in_map_iff in Hin. destruct Hin as [e [He Hin]].
  destruct (absent_from D e) eqn:Habs.
  - exfalso. assert (Hf : In e (filter (absent_from D) S)) by (apply filter_In; now split).
    apply (in_map (fun e => path (snd e))) in Hf. rewrite Hnil in Hf. destruct Hf.
  - apply not_true_iff_false in Habs. rewrite absent_from_spec in Habs.
    subst h. destruct (in_dec string_dec (fst e) (keys D)); [assumption | contradiction].
Qed.

(** X18. The reconciliation looks at the digests of the destination and at
    nothing else: two destination mappings with the same keys, whatever
    their records and their order, give the same list; and a destination
    with more digests leaves no more files missing. *)
Theorem reconcile_reads_destination_keys S D D' :
  ((forall h, In h (keys D) <-> In h (keys D')) ->
   reconcile S D = reconcile S D') /\
  ((forall h, In h (keys D) -> In h (keys D')) ->
   forall p, In p (reconcile S D') -> In p (reconcile S D)).
Proof.
  split.
  - intros Hsame. rewrite !reconcile_filter. f_equal. apply filter_ext.
    intros e. unfold absent_from. f_equal.
    destruct (mem_string (fst e) (keys D)) eqn:E1;
      destruct (mem_string (fst e) (keys D')) eqn:E2; try reflexivity.
    + apply mem_string_In, Hsame, mem_string_In in E1. congruence.
    + apply mem_string_In, Hsame, mem_string_In in E2. congruence.
  - intros Hsub p. rewrite !reconcile_filter, !in_map_iff.
    intros [e [He Hin]]. exists e. split; [assumption |].
    apply filter_In in Hin. apply filter_In. destruct Hin as [Hin Habs].
    split; [assumption |]. apply absent_from_spec. apply absent_from_spec in Habs.
    intros H. apply Habs. now apply Hsub.
Qed.

(** X19. Against an empty destination every record of the source is
    missing, in the order of the source; and the list of missing files is
    never longer than the source mapping. *)
Theorem reconcile_empty_destination S D :
  reconcile S [] = map path (values S) /\
  (length (reconcile S D) <= length S)%nat.
Proof.
  rewrite !reconcile_filter. split.
  - unfold values. induction S as [| e S IH]; simpl; [reflexivity | now rewrite IH].
  - rewrite length_map. induction S as [| e S IH]; simpl; [lia |].
    destruct (absent_from D e); simpl; lia.
Qed.

Lemma reconcile_reads_destination_keys_witness :
  reconcile toy_src_hashes toy_dst_hashes
  = reconcile toy_src_hashes [("h2"%string, movie_info)].
Proof.
  apply (proj1 (reconcile_reads_destination_keys toy_src_hashes toy_dst_hashes
                  [("h2"%string, movie_info)])).
  intros h. simpl. tauto.
Defined.

(* ------------------------------------------------------------------ *)
(** ** The command line: exit codes, streams, the cache switch *)


Lemma emit_lines_shape fs args missing line :
  In line (fst (emit fs args missing)) -> line_of_format (a_format args) line.
Proof.
  induction missing as [| p missing IH]; simpl; [intros [] |].
  destruct (build_record fs args p) as [r | e]; simpl; [| intros []].
  destruct (emit fs args missing) as [lines res]. simpl in *.
  intros Hin. apply in_app_or in Hin. destruct Hin as [Hin | Hin]; [| now apply IH].
  unfold print_record, line_of_format in *. destruct (a_format args).
  - destruct Hin as [<- | Hin]; [eexists; reflexivity |].
    destruct (rec_subtitles r); [destruct Hin |].
    destruct Hin as [<- | []]. eexists; reflexivity.
  - destruct Hin as [<- | []]. eexists; reflexivity.
Qed.

Lemma report_lines_shape fs args S D line :
  In line (fst (report fs args S D)) -> line_of_format (a_format args) line.
Proof.
  unfold report. destruct (reconcile S D) as [| p missing].
  - simpl. unfold line_of_format. destruct (a_format args); simpl; [| intros []].
    intros [<- | []]. eexists; reflexivity.
  - pose proof (emit_lines_shape fs args (p :: missing) line) as H.
    destruct (emit fs args (p :: missing)) as [lines res]. exact H.
Qed.

Section MainMore.

Variable hashlib : string -> option (list byte -> string).
Variable as_completed : list FileInfo -> list FileInfo.
Variable os_walk : Path -> bool -> list (Path * list string * list string).
Variable py_float : string -> result pyfloat.

Local Abbreviation run_main := (main hashlib as_completed os_walk py_float).

Lemma roots_test fs args :
  negb (path_exists fs (a_src args)) || negb (is_dir fs (a_src args))
  || negb (path_exists fs (a_dst args)) || negb (is_dir fs (a_dst args))
  = negb (is_dir fs (a_src args) && is_dir fs (a_dst args)).
Proof.
  unfold path_exists, is_dir.
  destruct (fs (a_src args)) as [e | [| |]]; destruct (fs (a_dst args)) as [e' | [| |]];
    reflexivity.
Qed.


(** X21. The standard output holds lines of one shape only: in [jsonl] mode
    every line is the JSON object of a record, in [text] mode every line is
    a line of text, however the run ends. *)
Theorem stdout_has_one_format fs db args line :
  In line (run_stdout (run_main fs db args)) ->
  line_of_format (a_format args) line.
Proof.
  unfold main.
  destruct (parse_size py_float (a_min_size args)) as [n | e]; [| intros []].
  destruct (_ || _); [intros [] |].
  destruct (hash_map _ _ _ _ _ _ _ _ _) as [src_run | e]; [| intros []].
  destruct (hash_map _ _ _ _ _ _ _ _ (hm_cache src_run)) as [dst_run | e];
    [| intros []].
  pose proof (report_lines_shape fs args (hm_out src_run) (hm_out dst_run) line) as H.
  destruct (report fs args (hm_out src_run) (hm_out dst_run)) as [lines res].
  exact H.
Qed.

Lemma complete_fold_nocache fs algo method chunk_size l out err :
  snd (fst (fold_left (complete_step hashlib fs algo method chunk_size) l
                      (out, None, err))) = None.
Proof.
  revert out err. induction l as [| fi l IH]; intros out err; simpl; [reflexivity |].
  destruct (hash_file hashlib fs (path fi) algo method chunk_size); apply IH.
Qed.

Lemma hash_map_nocache fs files algo method chunk_size workers r :
  hash_map hashlib as_completed fs files algo method chunk_size workers None
  = Ok r ->
  hm_cache r = None.
Proof.
  unfold hash_map. destruct (fold_left _ (values files) _) as [out to_hash].
  destruct to_hash as [| fi0 to_hash]; [intros H; now injection H as <- |].
  destruct (workers <=? 0); [discriminate |].
  pose proof (complete_fold_nocache fs algo method chunk_size
                (as_completed (fi0 :: to_hash)) out []) as Hc.
  destruct (fold_left _ (as_completed (fi0 :: to_hash)) _) as [[out' c'] err].
  simpl in Hc. intros H. injection H as <-. exact Hc.
Qed.

(** X22. A run whose [--cache] is empty or spells [none], in any case of
    the letters, leaves the cache database as it found it. *)
Theorem cache_switch_off fs db args :
  a_cache args = EmptyString \/ lower (a_cache args) = "none"%string ->
  run_db (run_main fs db args) = db.
Proof.
  intros Hoff.
  assert (Hdis : cache_enabled args = false).
  { unfold cache_enabled, truthy. destruct Hoff as [-> | ->]; simpl.
    - reflexivity.
    - apply andb_false_r. }
  unfold main. rewrite Hdis.
  destruct (parse_size py_float (a_min_size args)) as [n | e]; [| reflexivity].
  destruct (_ || _); [reflexivity |].
  destruct (hash_map _ _ _ _ _ _ _ _ None) as [src_run | e] eqn:Hsrc; [| reflexivity].
  rewrite (hash_map_nocache _ _ _ _ _ _ _ Hsrc). clear Hsrc.
  destruct (hash_map _ _ _ _ _ _ _ _ None) as [dst_run | e] eqn:Hdst; [| reflexivity].
  rewrite (hash_map_nocache _ _ _ _ _ _ _ Hdst).
  now destruct (report fs args (hm_out src_run) (hm_out dst_run)).
Qed.

End MainMore.

Lemma cache_switch_off_witness :
  run_db (main toy_hashlib (fun l => l) (flat_walk toy_fs) decimal_float toy_fs
               restored_cache
               {| a_src := src_dir; a_dst := dst_dir; a_format := jsonl;
                  a_algo := "blake2b"; a_method := "partial"; a_chunk_size := 3;
                  a_min_size := "5"; a_workers := 2; a_cache := "NONE";
                  a_follow_symlinks := false |})
  = restored_cache.
Proof.
  apply (cache_switch_off toy_hashlib (fun l => l) (flat_walk toy_fs) decimal_float).
  right. reflexivity.
Defined.

Lemma stdout_has_one_format_witness :
  line_of_format jsonl (JsonLine movie_record).
Proof.
  apply (stdout_has_one_format toy_hashlib (fun l => l) (flat_walk toy_fs)
           decimal_float toy_fs empty_cache (toy_args jsonl) (JsonLine movie_record)).
  simpl. now left.
Defined.

(* ------------------------------------------------------------------ *)
(** ** The subtitle locator: what it returns and when it raises *)

Lemma startswith_contains s p : startswith s p = true -> contains p s = true.
Proof.
  unfold startswith. intros H. destruct s; cbn [contains]; now rewrite H.
Qed.

(** X23. The second test of the strict tier never decides: a stem that
    starts with the stem of the video contains it, so the strict test is
    the containment test alone. *)
Theorem strict_test_is_containment src p :
  strict_match src p = contains (lower (stem src)) (lower (stem p)).
Proof.
  unfold strict_match.
  destruct (contains (lower (stem src)) (lower (stem p))) eqn:Hc; [reflexivity |].
  destruct (startswith (lower (stem p)) (lower (stem src))) eqn:Hs; [| reflexivity].
  apply startswith_contains in Hs. congruence.
Qed.

Lemma parent_join d nm : parent (path_join d nm) = d.
Proof. unfold parent, path_join. apply removelast_last. Qed.

Lemma iterdir_children fs d ps p :
  iterdir fs d = Ok ps -> In p ps -> parent p = d.
Proof.
  unfold iterdir.
  destruct (fs d) as [e | [content mtime oe | [e | names] mtime dsize | mtime ssize]];
    try discriminate.
  intros H. injection H as <-. intros Hin. apply in_map_iff in Hin.
  destruct Hin as [nm [<- _]]. apply parent_join.
Qed.

Lemma scan_pass_sound fs src dirs out d out' :
  In d dirs ->
  (forall s, In s out -> nearby_subtitle fs src dirs s) ->
  scan_pass fs src out d = Ok out' ->
  forall s, In s out' -> nearby_subtitle fs src dirs s.
Proof.
  intros Hd Hout. destruct (iterdir fs d) as [ps | e] eqn:Hls.
  - rewrite (scan_pass_listed fs src out d ps Hls). intros H. injection H as <-.
    intros s Hin. apply in_app_or in Hin. destruct Hin as [Hin | Hin]; [now apply Hout |].
    apply in_app_or in Hin. destruct Hin as [Hin | Hin].
    + apply in_strict_tier in Hin.
      destruct Hin as [p [Hp [-> [Hfile [Hext Hname]]]]].
      exists p. rewrite (iterdir_children fs d ps p Hls Hp).
      split; [reflexivity |]. split; [assumption |].
      split; [assumption |]. split; [assumption |].
      left. unfold strict_match. apply orb_true_iff. exact Hname.
    + destruct (out ++ strict_tier fs src ps)%list; [| destruct Hin].
      apply in_loose_tier in Hin.
      destruct Hin as [p [Hp [-> [Hfile [Hext [tok [Hsrc Htok]]]]]]].
      exists p. rewrite (iterdir_children fs d ps p Hls Hp).
      split; [reflexivity |]. split; [assumption |].
      split; [assumption |]. split; [assumption |].
      right. unfold loose_match. apply existsb_exists. exists tok.
      split; [assumption | now apply mem_string_In].
  - unfold scan_pass. rewrite Hls.
    destruct (is_PermissionError e); [| discriminate].
    intros H. injection H as <-. exact Hout.
Qed.

Lemma scan_dirs_sound fs src dirs todo out subs :
  (forall d, In d todo -> In d dirs) ->
  (forall s, In s out -> nearby_subtitle fs src dirs s) ->
  scan_dirs fs src out todo = Ok subs ->
  forall s, In s subs -> nearby_subtitle fs src dirs s.
Proof.
  revert out. induction todo as [| d todo IH]; intros out Hsub Hout; simpl.
  - intros H. injection H as <-. exact Hout.
  - destruct (scan_pass fs src out d) as [out' |] eqn:Hpass; simpl; [| discriminate].
    apply IH; [intros d' Hd'; apply Hsub; now right |].
    apply (scan_pass_sound fs src dirs out d out'); [apply Hsub; now left | | ]; assumption.
Qed.

(** X24. Every path that the locator returns is a regular file with a
    subtitle extension that lies directly in the directory of the video or
    in its [Subs] directory, and that passes the strict or the loosened
    name test: the locator never looks into another directory or deeper. *)
Theorem subtitles_are_nearby_files fs src subs s :
  find_subtitles_for fs src = Ok subs ->
  In s subs ->
  exists p,
    s = path_str p /\
    (parent p = parent src \/
     parent p = path_join (parent src) "Subs" /\ is_dir fs (parent p) = true) /\
    is_file fs p = true /\
    mem_string (lower (suffix p)) SUB_EXTS = true /\
    (strict_match src p = true \/ loose_match src p = true).
Proof.
  unfold find_subtitles_for. intros Hrun Hin.
  destruct (scan_dirs_sound fs src (candidates_dirs fs src) (candidates_dirs fs src)
              [] subs (fun d H => H) (fun s H => match H with end) Hrun s Hin)
    as [p [Hs [Hdir [Hfile [Hext Hname]]]]].
  exists p. split; [assumption |]. split; [| now repeat split].
  unfold candidates_dirs in Hdir.
  destruct (is_dir fs (path_join (parent src) "Subs")) eqn:Hsubs.
  - destruct Hdir as [Hd | [Hd | []]]; [left; now symmetry |].
    right. rewrite <- Hd. now split.
  - destruct Hdir as [Hd | []]. left. now symmetry.
Qed.




Lemma subtitles_are_nearby_files_witness :
  exists p,
    "/src/MovieA.eng.srt"%string = path_str p /\
    (parent p = parent movie \/
     parent p = path_join (parent movie) "Subs" /\ is_dir toy_fs (parent p) = true) /\
    is_file toy_fs p = true /\
    mem_string (lower (suffix p)) SUB_EXTS = true /\
    (strict_match movie p = true \/ loose_match movie p = true).
Proof.
  apply (subtitles_are_nearby_files toy_fs movie ["/src/MovieA.eng.srt"%string]).
  - reflexivity.
  - now left.
Defined.


(* ------------------------------------------------------------------ *)
(** ** From the two trees to the report *)

Section Mirror.

Variable hashlib : string -> option (list byte -> string).
Variable as_completed : list FileInfo -> list FileInfo.
Hypothesis as_completed_perm : forall l, Permutation (as_completed l) l.
Variable os_walk : Path -> bool -> list (Path * list string * list string).
Variable py_float : string -> result pyfloat.

Lemma fingerprint_nocache fs algo method chunk_size fi :
  fingerprint hashlib fs algo method chunk_size None fi
  = match stat fs (path fi) with
    | Ok _ =>
        match hash_file hashlib fs (path fi) algo method chunk_size with
        | Ok d => Some d
        | Raise _ => None
        end
    | Raise _ => None
    end.
Proof.
  unfold fingerprint, needs_hash, cached_digest.
  now destruct (stat fs (path fi)).
Qed.

(** X26. With the cache switched off and a pool of at least one worker,
    a run over two roots that are directories returns 0 and reports
    nothing missing as soon as every video file of the source walk that
    can be read has, among the video files of the destination walk, a
    readable file with the same bytes, whatever the names, the places and
    the modification times of the two files. *)
Theorem mirrored_tree_matches fs db args n :
  parse_size py_float (a_min_size args) = Ok n ->
  is_dir fs (a_src args) = true ->
  is_dir fs (a_dst args) = true ->
  cache_enabled args = false ->
  0 < a_workers args ->
  (forall p content mtime,
      walked (os_walk (a_src args) (a_follow_symlinks args)) p ->
      video_file fs n p ->
      fs p = inr (RegularFile content mtime None) ->
      exists q mtime',
        walked (os_walk (a_dst args) (a_follow_symlinks args)) q /\
        video_file fs n q /\
        fs q = inr (RegularFile content mtime' None)) ->
  let r := main hashlib as_completed os_walk py_float fs db args in
  run_exit r = Ok 0 /\
  run_stdout r = match a_format args with
                 | text => [TextLine "All matched."]
                 | jsonl => []
                 end /\
  run_db r = db.
Proof.
  intros Hsize Hsrc Hdst Hoff Hw Hmirror r. subst r.
  unfold main. rewrite Hsize, roots_test, Hsrc, Hdst, Hoff. cbn [andb negb].
  set (src_files := collect_video_files os_walk fs (a_src args) n
                                        (a_follow_symlinks args)).
  set (dst_files := collect_video_files os_walk fs (a_dst args) n
                                        (a_follow_symlinks args)).
  destruct (hash_map_runs hashlib as_completed fs (a_algo args) (a_method args)
              (a_chunk_size args) src_files (a_workers args) None Hw)
    as [src_run Hsrun].
  rewrite Hsrun, (hash_map_nocache _ _ _ _ _ _ _ _ _ Hsrun).
  destruct (hash_map_runs hashlib as_completed fs (a_algo args) (a_method args)
              (a_chunk_size args) dst_files (a_workers args) None Hw)
    as [dst_run Hdrun].
  rewrite Hdrun, (hash_map_nocache _ _ _ _ _ _ _ _ _ Hdrun).
  assert (Hnil : reconcile (hm_out src_run) (hm_out dst_run) = []).
  { apply reconcile_nil. intros h Hh.
    apply (hash_map_keys hashlib as_completed as_completed_perm _ _ _ _ _ _ _ _ _
             Hsrun) in Hh.
    destruct Hh as [fi [Hfi Hprint]].
    apply (hash_map_keys hashlib as_completed as_completed_perm _ _ _ _ _ _ _ _ _
             Hdrun).
    rewrite fingerprint_nocache in Hprint.
    destruct (stat fs (path fi)) as [st |] eqn:Hst; [| discriminate].
    destruct (hash_file hashlib fs (path fi) (a_algo args) (a_method args)
                        (a_chunk_size args)) as [d |] eqn:Hhash; [| discriminate].
    injection Hprint as ->.
    unfold values in Hfi. apply in_map_iff in Hfi.
    destruct Hfi as [[p fi'] [Heq Hin]]. simpl in Heq. subst fi'.
    destruct (collect_inv os_walk fs n (a_src args) (a_follow_symlinks args))
      as [_ Hinv].
    destruct (Hinv p fi Hin) as [Hwalk [Hvideo Hrec]].
    assert (Hpath : path fi = p) by now rewrite Hrec.
    rewrite Hpath in Hhash.
    destruct (hash_file_readable hashlib fs p _ _ _ _ Hhash)
      as [fn [content [mtime [_ Hp]]]].
    destruct (Hmirror p content mtime Hwalk Hvideo Hp)
      as [q [mtime' [Hqwalk [Hqvideo Hq]]]].
    exists {| path := q; size := size_of fs q |}. split.
    - apply in_map_iff. exists (q, {| path := q; size := size_of fs q |}).
      split; [reflexivity |].
      apply (dict_get_in path_eqb path_eqb_eq).
      now apply collect_complete.
    - rewrite fingerprint_nocache. cbn [path]. unfold stat. rewrite Hq.
      rewrite <- (hash_file_same_content hashlib fs fs p q _ _ _ _ _ _ _ Hp Hq).
      now rewrite Hhash. }
  unfold report. rewrite Hnil. cbn.
  now destruct (a_format args).
Qed.

End Mirror.

Lemma mirrored_tree_matches_witness :
  run_exit (main toy_hashlib (fun l => l) (flat_walk mirror_fs) decimal_float
                 mirror_fs empty_cache (uncached_args jsonl)) = Ok 0 /\
  run_stdout (main toy_hashlib (fun l => l) (flat_walk mirror_fs) decimal_float
                   mirror_fs empty_cache (uncached_args jsonl)) = [] /\
  run_db (main toy_hashlib (fun l => l) (flat_walk mirror_fs) decimal_float
               mirror_fs empty_cache (uncached_args jsonl)) = empty_cache.
Proof.
  apply (mirrored_tree_matches toy_hashlib (fun l => l)
           (fun l => Permutation_refl l) (flat_walk mirror_fs) decimal_float
           mirror_fs empty_cache (uncached_args jsonl) 5);
    try reflexivity.
  intros p content mtime [d [dn [fns [fname [Hd [Hf ->]]]]]] [_ Hsize] Hp.
  destruct Hd as [Hd | []]. injection Hd as <- _ <-.
  destruct Hf as [<- | [<- | []]].
  - exists [""; "dst"; "Copy.mkv"]%string, 200.
    injection Hp as <- _.
    split; [| split].
    + exists dst_dir, [], ["Copy.mkv"%string], "Copy.mkv"%string.
      split; [now left | split; [now left | reflexivity]].
    + split; [reflexivity |]. exists movie_content, 200, None.
      split; [reflexivity | vm_compute; discriminate].
    + reflexivity.
  - exfalso. destruct Hsize as [c [m [oe [Hfs Hlen]]]].
    injection Hfs as <- _ _. vm_compute in Hlen. now apply Hlen.
Defined.

(* ------------------------------------------------------------------ *)
(** ** Instances of the equivalences *)

Lemma scan_keeps_exactly_the_videos_witness :
  walked (flat_walk toy_fs src_dir false) movie /\ video_file toy_fs 5 movie.
Proof.
  apply (proj1 (scan_keeps_exactly_the_videos (flat_walk toy_fs) toy_fs 5 src_dir
                  false movie)).
  simpl. tauto.
Defined.


Lemma reconcile_empty_iff_witness :
  reconcile [("h2"%string, movie_info)] toy_dst_hashes = [].
Proof.
  apply (proj2 (reconcile_empty_iff [("h2"%string, movie_info)] toy_dst_hashes)).
  intros h [<- | []]. now left.
Defined.

